(** * A shallow embedding of [bytebuffer::Buffer] (src/src/lib.rs)

    The buffer is the record of its two cursors and its storage vector.
    Every method taking [&mut self] is a computation in a small state monad
    over [Buffer] whose failures are Rust panics.  A panic keeps the buffer
    state reached at the panicking instruction, because that state is what
    the caller sees when it catches the unwinding.

    [usize] values are naturals.  Under the data-model invariant
    [read_index <= write_index <= data.len()], no [usize] subtraction
    of the source underflows.  Outside the invariant the model truncates
    where a debug build of the source panics.  Additions are not bounded
    by [usize::MAX]: a statement that a call with a caller-chosen size
    returns assumes, through [fits_vec], that the sizes it computes stay
    within the largest length of a [Vec<u8>], so that no [usize] addition
    of the source overflows and no [resize] exceeds that length.
    Allocation is assumed to succeed. *)

From Stdlib Require Import List Arith Lia ZArith Bool.
From Stdlib Require Import Strings.Byte.
Import ListNotations.

(** ** Bytes and byte vectors *)

(** [x as u8]: the low eight bits of an integer. *)
Definition byte_of_Z (z : Z) : byte :=
  match Byte.of_N (Z.to_N (z mod 256)) with
  | Some b => b
  | None => x00
  end.

Definition Z_of_byte (b : byte) : Z := Z.of_N (Byte.to_N b).

(** [vec![0u8; n]] *)
Definition zeros (n : nat) : list byte := repeat x00 n.

(** [v.resize(n, 0u8)]: truncates or pads with zeros. *)
Definition resize (n : nat) (v : list byte) : list byte :=
  if n <=? length v then firstn n v else v ++ zeros (n - length v).

(** The [len] bytes starting at offset [i]. *)
Definition slice (v : list byte) (i len : nat) : list byte :=
  firstn len (skipn i v).

(** [ptr::copy(src, &mut v[i], src.len())]: overwrite [src.len()] bytes
    from offset [i]. *)
Definition write_at (v : list byte) (i : nat) (src : list byte) : list byte :=
  firstn i v ++ src ++ skipn (i + length src) v.

(** ** The [Buffer] struct *)

Record Buffer := mkBuffer {
  read_index : nat;
  write_index : nat;
  data : list byte;
}.

(** [pub const PREPEND: usize = 8;] *)
Definition PREPEND : nat := 8.
(** [pub const INITIAL: usize = 1024;] *)
Definition INITIAL : nat := 1024.

Definition set_read_index (r : nat) (b : Buffer) : Buffer :=
  mkBuffer r (write_index b) (data b).
Definition set_write_index (w : nat) (b : Buffer) : Buffer :=
  mkBuffer (read_index b) w (data b).
Definition set_data (d : list byte) (b : Buffer) : Buffer :=
  mkBuffer (read_index b) (write_index b) d.

(** [Buffer::new] *)
Definition new (initial : option nat) : Buffer :=
  let size := match initial with Some sz => sz | None => INITIAL end in
  mkBuffer PREPEND PREPEND (zeros (PREPEND + size)).

Definition readable_bytes (b : Buffer) : nat := write_index b - read_index b.
Definition writable_bytes (b : Buffer) : nat := length (data b) - write_index b.
Definition prependable_bytes (b : Buffer) : nat := read_index b.

(** The readable region [data[read_index .. write_index]]. *)
Definition readable_content (b : Buffer) : list byte :=
  slice (data b) (read_index b) (readable_bytes b).

(** The data-model invariant [0 <= read_index <= write_index <= data.len()]. *)
Definition inv (b : Buffer) : Prop :=
  read_index b <= write_index b /\ write_index b <= length (data b).

(** The invariant together with a storage that holds the prepend margin,
    the form in which the calls preserve it. *)
Definition inv_margin (b : Buffer) : Prop := inv b /\ PREPEND <= length (data b).

(** [isize::MAX] on a 64-bit target: the largest length of a [Vec<u8>],
    beyond which [resize] panics.  A size within it, plus [PREPEND], does
    not overflow [usize]. *)
Definition VEC_MAX : N := (2 ^ 63 - 1)%N.

Definition fits_vec (n : nat) : Prop := (N.of_nat n <= VEC_MAX)%N.

(** ** Panics and the state monad *)

Inductive panic_kind :=
| IndexOutOfBounds   (* [v[i]] with [i >= v.len()] *)
| AssertionFailed    (* [assert!] *)
| UnwrapFailed.      (* [Result::unwrap] on an [Err] *)

Inductive outcome (A : Type) :=
| Ret (a : A) (b : Buffer)
| Panic (k : panic_kind) (b : Buffer).
Arguments Ret {A} a b.
Arguments Panic {A} k b.

Definition M (A : Type) : Type := Buffer -> outcome A.

Definition ret {A} (a : A) : M A := fun b => Ret a b.
Definition bind {A B} (m : M A) (f : A -> M B) : M B :=
  fun b => match m b with
           | Ret a b' => f a b'
           | Panic k b' => Panic k b'
           end.
Definition get : M Buffer := fun b => Ret b b.
Definition put (b' : Buffer) : M unit := fun _ => Ret tt b'.
Definition modify (f : Buffer -> Buffer) : M unit := fun b => Ret tt (f b).
Definition panic {A} (k : panic_kind) : M A := fun b => Panic k b.

Notation "x <- m ;; k" := (bind m (fun x => k))
  (at level 61, m at next level, right associativity).
Notation "m ;; k" := (bind m (fun _ => k))
  (at level 61, right associativity).

(** [assert!(c)] *)
Definition assert (c : bool) : M unit :=
  if c then ret tt else panic AssertionFailed.

(** The bounds check of an indexing expression [v[i]] with [v.len() = n]. *)
Definition index (i n : nat) : M unit :=
  if i <? n then ret tt else panic IndexOutOfBounds.

(** ** Big-endian integers *)

(** [x.to_be()] reinterpreted as [[u8; w]]: the [w] bytes of [x] modulo
    [2^(8w)], most significant first. *)
Fixpoint be_bytes (w : nat) (x : Z) : list byte :=
  match w with
  | O => []
  | S w' => be_bytes w' (x / 256) ++ [byte_of_Z x]
  end.

(** The unsigned big-endian value of a byte sequence. *)
Definition be_value (bs : list byte) : Z :=
  fold_left (fun acc b => (acc * 256 + Z_of_byte b)%Z) bs 0%Z.

(** [iW::from_be(transmute(bytes))]: two's complement of the big-endian
    value on [w] bytes. *)
Definition from_be (w : nat) (bs : list byte) : Z :=
  let u := be_value bs in
  if (u <? 2 ^ (8 * Z.of_nat w - 1))%Z then u else (u - 2 ^ (8 * Z.of_nat w))%Z.

(** The values of [iW]. *)
Definition in_int_range (w : nat) (x : Z) : Prop :=
  (- 2 ^ (8 * Z.of_nat w - 1) <= x < 2 ^ (8 * Z.of_nat w - 1))%Z.

(** ** UTF-8 (the check of [String::from_utf8]) *)

Definition bv (b : byte) : N := Byte.to_N b.
Definition cont (b : byte) : bool := (0x80 <=? bv b)%N && (bv b <=? 0xBF)%N.
Definition inr (lo hi : N) (b : byte) : bool := (lo <=? bv b)%N && (bv b <=? hi)%N.

(** Well-formed UTF-8 byte sequences (Unicode, table 3-7). *)
Fixpoint utf8_valid (l : list byte) : bool :=
  match l with
  | [] => true
  | b1 :: r1 =>
    if (bv b1 <? 0x80)%N then utf8_valid r1
    else match r1 with
    | [] => false
    | b2 :: r2 =>
      if inr 0xC2 0xDF b1 then cont b2 && utf8_valid r2
      else match r2 with
      | [] => false
      | b3 :: r3 =>
        if inr 0xE0 0xEF b1 then
          let ok2 := if (bv b1 =? 0xE0)%N then inr 0xA0 0xBF b2
                     else if (bv b1 =? 0xED)%N then inr 0x80 0x9F b2
                     else cont b2 in
          ok2 && cont b3 && utf8_valid r3
        else match r3 with
        | [] => false
        | b4 :: r4 =>
          if inr 0xF0 0xF4 b1 then
            let ok2 := if (bv b1 =? 0xF0)%N then inr 0x90 0xBF b2
                       else if (bv b1 =? 0xF4)%N then inr 0x80 0x8F b2
                       else cont b2 in
            ok2 && cont b3 && cont b4 && utf8_valid r4
          else false
        end
      end
    end
  end.

(** [String::from_utf8]: a Rust [String] is its UTF-8 byte sequence. *)
Definition from_utf8 (bs : list byte) : option (list byte) :=
  if utf8_valid bs then Some bs else None.

(** ** The methods of [impl Buffer] *)

(** [swap(&mut self, other)]: [mem::swap] of the two structs. *)
Definition swap (self other : Buffer) : Buffer * Buffer := (other, self).

(** [retrieve_all] *)
Definition retrieve_all : M unit :=
  modify (fun b => mkBuffer PREPEND PREPEND (data b)).

(** [has_written] *)
Definition has_written (len : nat) : M unit :=
  b <- get ;;
  assert (len <=? writable_bytes b) ;;
  modify (fun b => set_write_index (write_index b + len) b).

(** [unwrite] *)
Definition unwrite (len : nat) : M unit :=
  b <- get ;;
  assert (len <=? readable_bytes b) ;;
  modify (fun b => set_write_index (write_index b - len) b).

(** [make_space]: grow the storage to [write_index + len], or slide the
    readable bytes down to [PREPEND] ([ptr::copy] is a memmove). *)
Definition make_space (len : nat) : M unit :=
  b <- get ;;
  if writable_bytes b + prependable_bytes b <? PREPEND + len then
    put (set_data (resize (write_index b + len) (data b)) b)
  else
    assert (PREPEND <? read_index b) ;;
    let readable := readable_bytes b in
    index (read_index b) (length (data b)) ;;
    index PREPEND (length (data b)) ;;
    put (mkBuffer PREPEND (PREPEND + readable)
           (write_at (data b) PREPEND (slice (data b) (read_index b) readable))) ;;
    b' <- get ;;
    assert (readable =? readable_bytes b').

(** [ensure_writable_bytes] *)
Definition ensure_writable_bytes (len : nat) : M unit :=
  b <- get ;;
  (if writable_bytes b <? len then make_space len else ret tt) ;;
  b' <- get ;;
  assert (len <=? writable_bytes b').

(** [append_bytes]: the arguments of [ptr::copy_nonoverlapping] are
    evaluated left to right, [&bytes[0]] before [self.begin_write()]. *)
Definition append_bytes (bytes : list byte) : M unit :=
  ensure_writable_bytes (length bytes) ;;
  index 0 (length bytes) ;;
  b <- get ;;
  index (write_index b) (length (data b)) ;;
  put (set_data (write_at (data b) (write_index b) bytes) b) ;;
  has_written (length bytes).

(** [append_string(&String)]: appends [str.as_bytes()]. *)
Definition append_string (str : list byte) : M unit := append_bytes str.

(** [append_int8] .. [append_int64] *)
Definition append_int (w : nat) (x : Z) : M unit := append_bytes (be_bytes w x).
Definition append_int8 : Z -> M unit := append_int 1.
Definition append_int16 : Z -> M unit := append_int 2.
Definition append_int32 : Z -> M unit := append_int 4.
Definition append_int64 : Z -> M unit := append_int 8.

(** [prepend_bytes] *)
Definition prepend_bytes (bytes : list byte) : M unit :=
  b <- get ;;
  assert (length bytes <=? prependable_bytes b) ;;
  modify (fun b => set_read_index (read_index b - length bytes) b) ;;
  index 0 (length bytes) ;;
  b <- get ;;
  index (read_index b) (length (data b)) ;;
  put (set_data (write_at (data b) (read_index b) bytes) b).

(** [prepend_int8] .. [prepend_int64] *)
Definition prepend_int (w : nat) (x : Z) : M unit := prepend_bytes (be_bytes w x).
Definition prepend_int8 : Z -> M unit := prepend_int 1.
Definition prepend_int16 : Z -> M unit := prepend_int 2.
Definition prepend_int32 : Z -> M unit := prepend_int 4.
Definition prepend_int64 : Z -> M unit := prepend_int 8.

(** [retrieve] *)
Definition retrieve (len : nat) : M unit :=
  b <- get ;;
  assert (len <=? readable_bytes b) ;;
  if len <? readable_bytes b then
    modify (fun b => set_read_index (read_index b + len) b)
  else retrieve_all.

(** [retrieve_until] *)
Definition retrieve_until (end_ : nat) : M unit :=
  b <- get ;;
  assert (read_index b <=? end_) ;;
  assert (end_ <=? write_index b) ;;
  retrieve (end_ - read_index b).

(** [retrieve_as_string]: copy out, [retrieve], then
    [String::from_utf8(bytes).unwrap()].  The copy evaluates [self.peek()]
    ([&self.data[self.read_index]]) before [&mut bytes[0]]. *)
Definition retrieve_as_string (len : nat) : M (list byte) :=
  b <- get ;;
  assert (len <=? readable_bytes b) ;;
  index (read_index b) (length (data b)) ;;
  index 0 (length (zeros len)) ;;
  let bytes := slice (data b) (read_index b) len in
  retrieve len ;;
  match from_utf8 bytes with
  | Some s => ret s
  | None => panic UnwrapFailed
  end.

(** [retrieve_all_as_string] *)
Definition retrieve_all_as_string : M (list byte) :=
  b <- get ;;
  retrieve_as_string (readable_bytes b).

(** [peek_int16] .. [peek_int64]: assert, copy [w] bytes from [peek()],
    decode. *)
Definition peek_int (w : nat) : M Z :=
  b <- get ;;
  assert (w <=? readable_bytes b) ;;
  index (read_index b) (length (data b)) ;;
  ret (from_be w (slice (data b) (read_index b) w)).

(** [peek_int8]: [*self.peek() as i8]. *)
Definition peek_int8 : M Z := peek_int 1.
Definition peek_int16 : M Z := peek_int 2.
Definition peek_int32 : M Z := peek_int 4.
Definition peek_int64 : M Z := peek_int 8.

(** [read_int8] .. [read_int64]: peek, then [retrieve_intW]. *)
Definition read_int (w : nat) : M Z :=
  x <- peek_int w ;;
  retrieve w ;;
  ret x.
Definition read_int8 : M Z := read_int 1.
Definition read_int16 : M Z := read_int 2.
Definition read_int32 : M Z := read_int 4.
Definition read_int64 : M Z := read_int 8.

(** [shrink(reserve)]: a fresh [Buffer::new(None)] is made large enough,
    receives [self.retrieve_all_as_string()], and is swapped into [self].
    A panic on [other] leaves [self] as it stands at that point. *)
Definition shrink (reserve : nat) : M unit :=
  fun self =>
    let other := new None in
    match ensure_writable_bytes (readable_bytes self + reserve) other with
    | Panic k _ => Panic k self
    | Ret _ other1 =>
      match retrieve_all_as_string self with
      | Panic k self1 => Panic k self1
      | Ret s self1 =>
        match append_string s other1 with
        | Panic k _ => Panic k self1
        | Ret _ other2 => Ret tt (fst (swap self1 other2))
        end
      end
    end.

(** ** Sequences of public calls *)

(** The widths of [append_intW], [prepend_intW] and [read_intW] in bytes. *)
Inductive width := W8 | W16 | W32 | W64.

Definition width_bytes (wd : width) : nat :=
  match wd with W8 => 1 | W16 => 2 | W32 => 4 | W64 => 8 end.

(** The method of each width. *)
Definition append_intW (wd : width) : Z -> M unit :=
  match wd with
  | W8 => append_int8 | W16 => append_int16
  | W32 => append_int32 | W64 => append_int64
  end.
Definition prepend_intW (wd : width) : Z -> M unit :=
  match wd with
  | W8 => prepend_int8 | W16 => prepend_int16
  | W32 => prepend_int32 | W64 => prepend_int64
  end.
Definition read_intW (wd : width) : M Z :=
  match wd with
  | W8 => read_int8 | W16 => read_int16
  | W32 => read_int32 | W64 => read_int64
  end.

(** The public methods on one buffer, with their arguments. *)
Inductive op :=
| OpAppendBytes (bytes : list byte)
| OpAppendString (str : list byte)
| OpAppendInt (wd : width) (x : Z)
| OpPrependBytes (bytes : list byte)
| OpPrependInt (wd : width) (x : Z)
| OpRetrieve (len : nat)
| OpRetrieveUntil (end_ : nat)
| OpRetrieveAll
| OpRetrieveAsString (len : nat)
| OpRetrieveAllAsString
| OpReadInt (wd : width)
| OpHasWritten (len : nat)
| OpUnwrite (len : nat)
| OpEnsureWritableBytes (len : nat)
| OpMakeSpace (len : nat)
| OpShrink (reserve : nat).

(** A call, its result dropped. *)
Definition exec (o : op) : M unit :=
  match o with
  | OpAppendBytes bs => append_bytes bs
  | OpAppendString s => append_string s
  | OpAppendInt wd x => append_intW wd x
  | OpPrependBytes bs => prepend_bytes bs
  | OpPrependInt wd x => prepend_intW wd x
  | OpRetrieve n => retrieve n
  | OpRetrieveUntil e => retrieve_until e
  | OpRetrieveAll => retrieve_all
  | OpRetrieveAsString n => _ <- retrieve_as_string n ;; ret tt
  | OpRetrieveAllAsString => _ <- retrieve_all_as_string ;; ret tt
  | OpReadInt wd => _ <- read_intW wd ;; ret tt
  | OpHasWritten n => has_written n
  | OpUnwrite n => unwrite n
  | OpEnsureWritableBytes n => ensure_writable_bytes n
  | OpMakeSpace n => make_space n
  | OpShrink n => shrink n
  end.

(** A sequence of calls, and the buffer a computation leaves (its result
    or the state at its panic). *)
Fixpoint run (os : list op) : M unit :=
  match os with
  | [] => ret tt
  | o :: os' => exec o ;; run os'
  end.

Definition final {A} (o : outcome A) : Buffer :=
  match o with Ret _ b => b | Panic _ b => b end.

(** The buffers a program can hold: made by [Buffer::new], changed by
    calls that return, or exchanged by [swap] with another such buffer. *)
Inductive reachable : Buffer -> Prop :=
| reach_new (initial : option nat) : reachable (new initial)
| reach_exec (o : op) (b b' : Buffer) :
    reachable b -> exec o b = Ret tt b' -> reachable b'
| reach_swap (b1 b2 : Buffer) :
    reachable b1 -> reachable b2 -> reachable (fst (swap b1 b2)).

(** ** The read-only searches

    [find_crlf], [find_eol] and their [_from] forms take [&self]: they read
    the buffer and return a position in [data], or panic.  Besides the
    panics of [panic_kind], [end - 1] in [do_find_crlf] overflows when
    [end = 0], which a debug build reports as a panic. *)
Inductive search_outcome :=
| Found (pos : option nat)
| SearchPanic (k : panic_kind)
| SubtractOverflow.

(** The loop [for i in i..i+count] of [do_find_crlf]: [self.data[i]] and
    [self.data[i+1]] are compared with ['\r'] and ['\n'] ([u8 as char]
    keeps the code point). *)
Fixpoint crlf_loop (d : list byte) (i count : nat) : search_outcome :=
  match count with
  | O => Found None
  | S c =>
    match nth_error d i with
    | None => SearchPanic IndexOutOfBounds
    | Some chr1 =>
      match nth_error d (i + 1) with
      | None => SearchPanic IndexOutOfBounds
      | Some chr2 =>
        if Byte.eqb chr1 x0d && Byte.eqb chr2 x0a then Found (Some i)
        else crlf_loop d (S i) c
      end
    end
  end.

(** [do_find_crlf]: [assert!(start <= end)], then [start..end-1], empty
    when [start >= end - 1]. *)
Definition do_find_crlf (b : Buffer) (start end_ : nat) : search_outcome :=
  if negb (start <=? end_) then SearchPanic AssertionFailed
  else if end_ =? 0 then SubtractOverflow
  else crlf_loop (data b) start (end_ - 1 - start).

(** [find_crlf] *)
Definition find_crlf (b : Buffer) : search_outcome :=
  do_find_crlf b (read_index b) (write_index b).

(** [find_crlf_from] *)
Definition find_crlf_from (b : Buffer) (start : nat) : search_outcome :=
  if negb (read_index b <=? start) then SearchPanic AssertionFailed
  else if negb (start <=? write_index b) then SearchPanic AssertionFailed
  else do_find_crlf b start (write_index b).

(** The loop [for i in i..i+count] of [do_find_eol]: [self.data[i]] is
    compared with ['\n']. *)
Fixpoint eol_loop (d : list byte) (i count : nat) : search_outcome :=
  match count with
  | O => Found None
  | S c =>
    match nth_error d i with
    | None => SearchPanic IndexOutOfBounds
    | Some chr =>
      if Byte.eqb chr x0a then Found (Some i) else eol_loop d (S i) c
    end
  end.

(** [do_find_eol]: [assert!(start <= end)], then [start..end]. *)
Definition do_find_eol (b : Buffer) (start end_ : nat) : search_outcome :=
  if negb (start <=? end_) then SearchPanic AssertionFailed
  else eol_loop (data b) start (end_ - start).

(** [find_eol] *)
Definition find_eol (b : Buffer) : search_outcome :=
  do_find_eol b (read_index b) (write_index b).

(** [find_eol_from] *)
Definition find_eol_from (b : Buffer) (start : nat) : search_outcome :=
  if negb (read_index b <=? start) then SearchPanic AssertionFailed
  else if negb (start <=? write_index b) then SearchPanic AssertionFailed
  else do_find_eol b start (write_index b).

(** A CRLF pair, and a ['\n'], at position [i] of the storage. *)
Definition crlf_at (d : list byte) (i : nat) : Prop :=
  nth_error d i = Some x0d /\ nth_error d (i + 1) = Some x0a.
Definition eol_at (d : list byte) (i : nat) : Prop :=
  nth_error d i = Some x0a.

(** What a search for the first CRLF pair lying in [[start, end_)] finds:
    its position, or [None] when there is none. *)
Definition first_crlf (d : list byte) (start end_ : nat) (pos : option nat) : Prop :=
  match pos with
  | Some i => start <= i /\ i + 2 <= end_ /\ crlf_at d i /\
              forall j, start <= j < i -> ~ crlf_at d j
  | None => forall j, start <= j -> j + 2 <= end_ -> ~ crlf_at d j
  end.

(** The same for the first ['\n'] in [[start, end_)]. *)
Definition first_eol (d : list byte) (start end_ : nat) (pos : option nat) : Prop :=
  match pos with
  | Some i => start <= i < end_ /\ eol_at d i /\
              forall j, start <= j < i -> ~ eol_at d j
  | None => forall j, start <= j < end_ -> ~ eol_at d j
  end.

(** ** Peeking, and reading from a stream *)

(** The [peek_intW] method of each width. *)
Definition peek_intW (wd : width) : M Z :=
  match wd with
  | W8 => peek_int8 | W16 => peek_int16
  | W32 => peek_int32 | W64 => peek_int64
  end.

(** [std::io::Result]: a value or an I/O error of type [E]. *)
Inductive io_result (E A : Type) :=
| IoOk (a : A)
| IoErr (e : E).
Arguments IoOk {E A} a.
Arguments IoErr {E A} e.

(** [read_from(stream)]: the call [stream.read(&mut bytes)] on the zeroed
    [[u8; 65536]] is [stream_read], from the array it is handed to its
    result and the array it leaves; [try!] returns an error as it is;
    [&bytes[..received]] panics when [received > bytes.len()]. *)
Definition read_from {E : Type}
    (stream_read : list byte -> io_result E (nat * list byte)) : M (io_result E nat) :=
  match stream_read (zeros 65536) with
  | IoErr e => ret (IoErr e)
  | IoOk (received, bytes) =>
    (if received <=? length bytes then ret tt else panic IndexOutOfBounds) ;;
    append_bytes (firstn received bytes) ;;
    ret (IoOk received)
  end.

(** The calls whose sizes stay in range: the length a call grows the
    storage to is within [VEC_MAX], and [make_space(len)] is called, as
    [ensure_writable_bytes] calls it, with [len > writable_bytes()]. *)
Definition call_in_range (o : op) (b : Buffer) : Prop :=
  match o with
  | OpAppendBytes bs => fits_vec (write_index b + length bs)
  | OpAppendString s => fits_vec (write_index b + length s)
  | OpAppendInt wd _ => fits_vec (write_index b + width_bytes wd)
  | OpEnsureWritableBytes n => fits_vec (write_index b + n)
  | OpMakeSpace n => writable_bytes b < n /\ fits_vec (write_index b + n)
  | OpShrink reserve => fits_vec (PREPEND + readable_bytes b + reserve)
  | _ => True
  end.

(** ** A sample buffer

    The readable bytes "ab", CR, LF, "cd" after the prepend margin. *)
Definition sample_line : Buffer :=
  mkBuffer 8 14 (zeros 8 ++ [x61; x62; x0d; x0a; x63; x64] ++ zeros 10).

(** ** Lemmas on the byte-vector operations *)

Lemma firstn_add {A} (a c : nat) (l : list A) :
  firstn (a + c) l = firstn a l ++ firstn c (skipn a l).
Proof.
  revert l; induction a as [|a IH]; intros [|x l]; simpl; try reflexivity.
  - now rewrite firstn_nil.
  - now rewrite IH.
Qed.

Lemma slice_add (v : list byte) (j a c : nat) :
  slice v j (a + c) = slice v j a ++ slice v (j + a) c.
Proof.
  unfold slice. rewrite firstn_add, skipn_skipn.
  now replace (a + j) with (j + a) by lia.
Qed.

Lemma length_slice (v : list byte) (i len : nat) :
  i + len <= length v -> length (slice v i len) = len.
Proof.
  intros H. unfold slice. rewrite length_firstn, length_skipn. lia.
Qed.

Lemma length_write_at (v : list byte) (i : nat) (src : list byte) :
  i + length src <= length v -> length (write_at v i src) = length v.
Proof.
  intros H. unfold write_at.
  rewrite !length_app, length_firstn, length_skipn. lia.
Qed.

Lemma length_resize (n : nat) (v : list byte) : length (resize n v) = n.
Proof.
  unfold resize, zeros. destruct (Nat.leb_spec n (length v)).
  - rewrite length_firstn. lia.
  - rewrite length_app, repeat_length. lia.
Qed.

Lemma slice_write_at_same (v : list byte) (i : nat) (src : list byte) :
  i <= length v -> slice (write_at v i src) i (length src) = src.
Proof.
  intros H. unfold slice, write_at.
  rewrite skipn_app, skipn_all2 by (rewrite length_firstn; lia).
  rewrite length_firstn. replace (i - Nat.min i (length v)) with 0 by lia.
  simpl. rewrite firstn_app, firstn_all, Nat.sub_diag. simpl. apply app_nil_r.
Qed.

Lemma slice_write_at_before (v : list byte) (i j len : nat) (src : list byte) :
  j + len <= i -> i <= length v ->
  slice (write_at v i src) j len = slice v j len.
Proof.
  intros H1 H2. unfold slice, write_at.
  rewrite skipn_app, firstn_app, skipn_firstn_comm, length_firstn,
    length_skipn, length_firstn, firstn_firstn.
  replace (len - Nat.min (i - j) (length v - j)) with 0 by lia.
  replace (Nat.min len (i - j)) with len by lia.
  simpl. apply app_nil_r.
Qed.

Lemma slice_resize (v : list byte) (n i len : nat) :
  i + len <= length v -> i + len <= n ->
  slice (resize n v) i len = slice v i len.
Proof.
  intros H1 H2. unfold resize, slice.
  destruct (Nat.leb_spec n (length v)).
  - rewrite skipn_firstn_comm, firstn_firstn. f_equal. lia.
  - rewrite skipn_app, firstn_app, length_skipn.
    replace (len - (length v - i)) with 0 by lia. simpl.
    apply app_nil_r.
Qed.

(** ** Unfolding the monad *)

Ltac mcrush :=
  repeat (match goal with
          | |- context [?a <? ?c] => destruct (Nat.ltb_spec a c)
          | |- context [?a <=? ?c] => destruct (Nat.leb_spec a c)
          | |- context [?a =? ?c] => destruct (Nat.eqb_spec a c)
          end; cbn [read_index write_index data length] in *; try lia).

Ltac munfold :=
  cbv [bind get put modify ret panic assert index
       set_read_index set_write_index set_data
       readable_bytes writable_bytes prependable_bytes] in *;
  cbn [read_index write_index data] in *.

(** ** Closed forms of the methods *)

(** [ensure_writable_bytes]: the three branches. *)
Lemma ensure_noop (b : Buffer) (n : nat) :
  n <= writable_bytes b -> ensure_writable_bytes n b = Ret tt b.
Proof.
  destruct b as [r w d]; unfold ensure_writable_bytes; munfold; intros H.
  mcrush; reflexivity.
Qed.

Lemma ensure_grow (b : Buffer) (n : nat) :
  writable_bytes b < n ->
  writable_bytes b + prependable_bytes b < PREPEND + n ->
  ensure_writable_bytes n b =
    Ret tt (mkBuffer (read_index b) (write_index b) (resize (write_index b + n) (data b))).
Proof.
  destruct b as [r w d]; unfold ensure_writable_bytes, make_space, PREPEND; munfold; intros H1 H2.
  pose proof (length_resize (w + n) d). mcrush. reflexivity.
Qed.

Lemma ensure_compact (b : Buffer) (n : nat) :
  inv b -> read_index b < length (data b) ->
  writable_bytes b < n ->
  PREPEND + n <= writable_bytes b + prependable_bytes b ->
  ensure_writable_bytes n b =
    Ret tt (mkBuffer PREPEND (PREPEND + readable_bytes b)
      (write_at (data b) PREPEND (slice (data b) (read_index b) (readable_bytes b)))).
Proof.
  destruct b as [r w d]; unfold inv, ensure_writable_bytes, make_space, PREPEND; munfold;
    intros [Hi1 Hi2] H0 H1 H2.
  assert (Hl : length (write_at d 8 (slice d r (w - r))) = length d).
  { apply length_write_at. rewrite length_slice; lia. }
  mcrush. reflexivity.
Qed.

Lemma ensure_post (b b1 : Buffer) (n : nat) (u : unit) :
  ensure_writable_bytes n b = Ret u b1 -> n <= writable_bytes b1.
Proof.
  destruct b as [r w d]; unfold ensure_writable_bytes; munfold.
  destruct (length d - w <? n).
  - destruct (make_space n {| read_index := r; write_index := w; data := d |})
      as [u1 b2|k b2]; [|discriminate].
    destruct (n <=? length (data b2) - write_index b2) eqn:E; intros H; inversion H; subst.
    apply Nat.leb_le in E. exact E.
  - cbn. destruct (n <=? length d - w) eqn:E; intros H; inversion H; subst.
    apply Nat.leb_le in E. exact E.
Qed.

(** [append_bytes] once [ensure_writable_bytes] has returned. *)
Lemma append_bytes_after_ensure (b b1 : Buffer) (bytes : list byte) :
  ensure_writable_bytes (length bytes) b = Ret tt b1 ->
  bytes <> [] ->
  append_bytes bytes b =
    Ret tt (mkBuffer (read_index b1) (write_index b1 + length bytes)
              (write_at (data b1) (write_index b1) bytes)).
Proof.
  intros He Hne. pose proof (ensure_post _ _ _ _ He) as Hw.
  unfold append_bytes, has_written. unfold bind at 1. rewrite He.
  destruct b1 as [r1 w1 d1]. munfold.
  assert (Hn : 0 < length bytes) by (destruct bytes; [congruence | simpl; lia]).
  assert (Hl : length (write_at d1 w1 bytes) = length d1)
    by (apply length_write_at; lia).
  mcrush. reflexivity.
Qed.

(** [retrieve]: the two branches. *)
Lemma retrieve_part (b : Buffer) (n : nat) :
  n < readable_bytes b ->
  retrieve n b = Ret tt (mkBuffer (read_index b + n) (write_index b) (data b)).
Proof.
  destruct b as [r w d]; unfold retrieve; munfold; intros H. mcrush. reflexivity.
Qed.

Lemma retrieve_full (b : Buffer) (n : nat) :
  n = readable_bytes b ->
  retrieve n b = Ret tt (mkBuffer PREPEND PREPEND (data b)).
Proof.
  destruct b as [r w d]; unfold retrieve, retrieve_all; munfold; intros H.
  mcrush. reflexivity.
Qed.

(** ** Success of appends *)

Lemma append_bytes_nil (b : Buffer) :
  append_bytes [] b = Panic IndexOutOfBounds b.
Proof.
  destruct b as [r w d]. unfold append_bytes, ensure_writable_bytes; munfold.
  mcrush. reflexivity.
Qed.

Lemma ensure_ok (b : Buffer) (n : nat) :
  inv b -> read_index b < length (data b) \/ read_index b <= PREPEND ->
  exists b1, ensure_writable_bytes n b = Ret tt b1 /\ inv b1 /\
    n <= writable_bytes b1 /\ readable_bytes b1 = readable_bytes b /\
    readable_content b1 = readable_content b /\
    (read_index b1 < length (data b1) \/ read_index b1 <= PREPEND).
Proof.
  intros Hi Hs. destruct (Nat.leb_spec n (writable_bytes b)) as [H1|H1].
  { exists b. rewrite ensure_noop by exact H1. auto 7. }
  destruct (Nat.ltb_spec (writable_bytes b + prependable_bytes b) (PREPEND + n)) as [H2|H2].
  - rewrite ensure_grow by assumption. eexists; split; [reflexivity|].
    destruct b as [r w d]; unfold inv, readable_content, readable_bytes,
      writable_bytes, prependable_bytes, PREPEND in *; cbn [read_index write_index data] in *.
    rewrite length_resize, slice_resize by lia. repeat split; lia.
  - destruct b as [r w d]; unfold inv, readable_content, readable_bytes,
      writable_bytes, prependable_bytes, PREPEND in *; cbn [read_index write_index data] in *.
    assert (Hr : r < length d) by lia.
    rewrite ensure_compact by (unfold inv, writable_bytes, prependable_bytes, PREPEND; cbn [read_index write_index data]; lia).
    eexists; split; [reflexivity|].
    unfold inv, readable_content, readable_bytes, writable_bytes, PREPEND; cbn [read_index write_index data].
    assert (Hsl : length (slice d r (w - r)) = w - r) by (apply length_slice; lia).
    rewrite length_write_at by lia.
    replace (8 + (w - r) - 8) with (length (slice d r (w - r))) by lia.
    rewrite slice_write_at_same by lia.
    repeat split; lia.
Qed.

Lemma append_ok (b : Buffer) (bytes : list byte) :
  inv b -> read_index b < length (data b) \/ read_index b <= PREPEND ->
  bytes <> [] ->
  exists b2, append_bytes bytes b = Ret tt b2 /\ inv b2 /\
    readable_bytes b2 = readable_bytes b + length bytes /\
    readable_content b2 = readable_content b ++ bytes /\
    read_index b2 < length (data b2).
Proof.
  intros Hi Hs Hne.
  destruct (ensure_ok b (length bytes) Hi Hs) as (b1 & He & Hi1 & Hw1 & Hr1 & Hc1 & _).
  rewrite (append_bytes_after_ensure _ _ _ He Hne).
  eexists; split; [reflexivity|].
  assert (Hn : 0 < length bytes) by (destruct bytes; [congruence | simpl; lia]).
  destruct b1 as [r1 w1 d1]; unfold inv, readable_content, readable_bytes,
    writable_bytes in *; cbn [read_index write_index data] in *.
  rewrite length_write_at by lia.
  replace (w1 + length bytes - r1) with ((w1 - r1) + length bytes) by lia.
  rewrite slice_add, slice_write_at_before by lia.
  replace (r1 + (w1 - r1)) with w1 by lia.
  rewrite slice_write_at_same by lia.
  rewrite <- Hc1, <- Hr1. repeat split; lia.
Qed.
Lemma ensure_compact_oob (b : Buffer) (n : nat) :
  length (data b) <= read_index b ->
  writable_bytes b < n ->
  PREPEND + n <= writable_bytes b + prependable_bytes b ->
  ensure_writable_bytes n b = Panic IndexOutOfBounds b.
Proof.
  destruct b as [r w d]; unfold ensure_writable_bytes, make_space, PREPEND; munfold;
    intros H0 H1 H2.
  mcrush. reflexivity.
Qed.

Lemma append_bytes_spec (b b1 : Buffer) (bytes : list byte) :
  inv b1 -> ensure_writable_bytes (length bytes) b = Ret tt b1 -> bytes <> [] ->
  exists b2, append_bytes bytes b = Ret tt b2 /\ inv b2 /\
    length (data b2) = length (data b1) /\ read_index b2 = read_index b1 /\
    readable_bytes b2 = readable_bytes b1 + length bytes /\
    readable_content b2 = readable_content b1 ++ bytes.
Proof.
  intros Hi1 He Hne. pose proof (ensure_post _ _ _ _ He) as Hw1.
  rewrite (append_bytes_after_ensure _ _ _ He Hne).
  eexists; split; [reflexivity|].
  destruct b1 as [r1 w1 d1]; unfold inv, readable_content, readable_bytes,
    writable_bytes in *; cbn [read_index write_index data] in *.
  rewrite length_write_at by lia.
  replace (w1 + length bytes - r1) with ((w1 - r1) + length bytes) by lia.
  rewrite slice_add, slice_write_at_before by lia.
  replace (r1 + (w1 - r1)) with w1 by lia.
  rewrite slice_write_at_same by lia.
  repeat split; lia.
Qed.

(** ** Big-endian round trip *)

Lemma Z_of_byte_of_Z (x : Z) : Z_of_byte (byte_of_Z x) = (x mod 256)%Z.
Proof.
  unfold Z_of_byte, byte_of_Z.
  pose proof (Z.mod_pos_bound x 256 ltac:(lia)) as Hm.
  destruct (Byte.of_N (Z.to_N (x mod 256))) as [c|] eqn:E.
  - apply Byte.to_of_N in E. rewrite E. apply Z2N.id. lia.
  - apply Byte.of_N_None_iff in E. lia.
Qed.

Lemma be_value_snoc (l : list byte) (c : byte) :
  be_value (l ++ [c]) = (be_value l * 256 + Z_of_byte c)%Z.
Proof. unfold be_value. now rewrite fold_left_app. Qed.

Lemma length_be_bytes (w : nat) (x : Z) : length (be_bytes w x) = w.
Proof.
  revert x; induction w as [|w IH]; intros x; [reflexivity|].
  simpl. rewrite length_app, IH. simpl. lia.
Qed.

Lemma be_value_be_bytes (w : nat) (x : Z) :
  be_value (be_bytes w x) = (x mod 2 ^ (8 * Z.of_nat w))%Z.
Proof.
  revert x; induction w as [|w IH]; intros x.
  - simpl. now rewrite Z.mod_1_r.
  - cbn [be_bytes]. rewrite be_value_snoc, IH, Z_of_byte_of_Z.
    replace (8 * Z.of_nat (S w))%Z with (8 + 8 * Z.of_nat w)%Z by lia.
    rewrite Z.pow_add_r by lia.
    rewrite Z.rem_mul_r by (try lia; apply Z.pow_pos_nonneg; lia).
    change (2 ^ 8)%Z with 256%Z. lia.
Qed.

Lemma from_be_be_bytes (w : nat) (x : Z) :
  (1 <= w)%nat -> in_int_range w x -> from_be w (be_bytes w x) = x.
Proof.
  intros Hw Hx. unfold in_int_range, from_be in *.
  rewrite be_value_be_bytes.
  set (k := (8 * Z.of_nat w)%Z) in *.
  assert (Hk : (2 ^ k = 2 * 2 ^ (k - 1))%Z).
  { rewrite <- Z.pow_succ_r by lia. f_equal. lia. }
  assert (Hp : (0 < 2 ^ (k - 1))%Z) by (apply Z.pow_pos_nonneg; lia).
  destruct (Z.leb_spec 0 x).
  - rewrite Z.mod_small by lia.
    destruct (Z.ltb_spec x (2 ^ (k - 1))); lia.
  - assert (Hm : (x mod 2 ^ k = x + 2 ^ k)%Z).
    { rewrite <- (Z.mod_add x 1 (2 ^ k)) by lia. rewrite Z.mul_1_l.
      apply Z.mod_small. lia. }
    rewrite Hm. destruct (Z.ltb_spec (x + 2 ^ k) (2 ^ (k - 1))); lia.
Qed.

Lemma read_int_after (b1 : Buffer) (w : nat) :
  read_index b1 < length (data b1) -> readable_bytes b1 = w ->
  exists b2, read_int w b1 = Ret (from_be w (readable_content b1)) b2 /\
    readable_bytes b2 = 0.
Proof.
  intros Hr Hw. unfold read_int, peek_int. unfold bind at 1.
  destruct b1 as [r w1 d]. unfold readable_content.
  unfold readable_bytes in *; cbn [read_index write_index data] in *. subst w.
  munfold. mcrush.
  rewrite retrieve_full by (unfold readable_bytes; reflexivity).
  cbv [ret]. eexists; split; [reflexivity|]. unfold readable_bytes. reflexivity.
Qed.

Lemma int_roundtrip_gen (b : Buffer) (w : nat) (x : Z) :
  inv b -> read_index b < length (data b) \/ read_index b <= PREPEND ->
  readable_bytes b = 0 -> (1 <= w)%nat -> in_int_range w x ->
  exists b1 b2, append_int w x b = Ret tt b1 /\
    readable_content b1 = be_bytes w x /\ read_int w b1 = Ret x b2 /\
    readable_bytes b2 = 0.
Proof.
  intros Hi Hs H0 Hw Hx.
  assert (Hne : be_bytes w x <> []).
  { intros E. apply (f_equal (@length byte)) in E. rewrite length_be_bytes in E.
    simpl in E. lia. }
  destruct (append_ok b (be_bytes w x) Hi Hs Hne) as (b1 & E1 & _ & Hr1 & Hc1 & Hl1).
  assert (Hc : readable_content b1 = be_bytes w x).
  { rewrite Hc1. unfold readable_content. rewrite H0. reflexivity. }
  rewrite H0, length_be_bytes in Hr1.
  destruct (read_int_after b1 w Hl1 Hr1) as (b2 & E2 & Hr2).
  rewrite Hc, from_be_be_bytes in E2 by assumption.
  exists b1, b2. auto.
Qed.

(** ** Strings, fresh buffers and empty slices *)

Lemma retrieve_as_string_valid (b : Buffer) (n : nat) :
  inv b -> 0 < n -> n <= readable_bytes b ->
  utf8_valid (slice (data b) (read_index b) n) = true ->
  exists b', retrieve n b = Ret tt b' /\
    retrieve_as_string n b = Ret (slice (data b) (read_index b) n) b'.
Proof.
  intros Hi Hn Hr Hu. destruct b as [r w d].
  unfold inv, readable_bytes in *; cbn [read_index write_index data] in *.
  unfold retrieve_as_string, zeros. munfold. unfold from_utf8. rewrite Hu.
  rewrite repeat_length. mcrush.
  destruct (retrieve n {| read_index := r; write_index := w; data := d |})
    as [u b'|k b'] eqn:E.
  - exists b'. destruct u. split; reflexivity.
  - exfalso. destruct (Nat.ltb_spec n (w - r)).
    + rewrite retrieve_part in E by (unfold readable_bytes; cbn; lia). discriminate.
    + rewrite retrieve_full in E by (unfold readable_bytes; cbn; lia). discriminate.
Qed.

Lemma length_new_None : length (data (new None)) = 1032.
Proof. unfold new, zeros. cbn [data]. apply repeat_length. Qed.

Lemma ensure_fresh (k : nat) :
  exists d1, ensure_writable_bytes k (new None) = Ret tt (mkBuffer PREPEND PREPEND d1) /\
    length d1 = PREPEND + Nat.max INITIAL k.
Proof.
  pose proof length_new_None as Hl.
  assert (Hw : write_index (new None) = 8) by reflexivity.
  assert (Hr : read_index (new None) = 8) by reflexivity.
  destruct (Nat.leb_spec k INITIAL) as [H|H].
  - rewrite ensure_noop
      by (unfold writable_bytes; rewrite Hl, Hw; unfold INITIAL in *; lia).
    exists (data (new None)). split; [reflexivity|].
    rewrite Hl. unfold PREPEND, INITIAL in *. lia.
  - rewrite ensure_grow
      by (unfold writable_bytes, prependable_bytes; rewrite ?Hl, ?Hw, ?Hr;
          unfold PREPEND, INITIAL in *; lia).
    rewrite Hw. eexists; split; [reflexivity|].
    rewrite length_resize. unfold PREPEND, INITIAL in *. lia.
Qed.

Lemma retrieve_as_string_zero (b : Buffer) :
  retrieve_as_string 0 b = Panic IndexOutOfBounds b.
Proof.
  destruct b as [r w d]. unfold retrieve_as_string, zeros. munfold.
  cbn [repeat length]. mcrush; reflexivity.
Qed.

Lemma prepend_bytes_nil (b : Buffer) :
  prepend_bytes [] b = Panic IndexOutOfBounds b.
Proof.
  destruct b as [r w d]. unfold prepend_bytes. munfold. mcrush.
  rewrite Nat.sub_0_r. reflexivity.
Qed.

(** ** Reachability *)

Lemma run_reachable (os : list op) (b b' : Buffer) :
  reachable b -> run os b = Ret tt b' -> reachable b'.
Proof.
  revert b; induction os as [|o os IH]; intros b Hr E.
  - cbv [run ret] in E. injection E as <-. exact Hr.
  - cbn [run] in E. unfold bind at 1 in E.
    destruct (exec o b) as [[] b1|k b1] eqn:Eo; [|discriminate].
    exact (IH b1 (reach_exec o b b1 Hr Eo) E).
Qed.

(** ** Invariant preservation, call by call

    The calls that return keep [inv_margin]; [make_space(len)] does so when
    [len > writable_bytes()]. *)

Lemma ensure_inv (b b1 : Buffer) (n : nat) :
  inv_margin b -> ensure_writable_bytes n b = Ret tt b1 ->
  inv_margin b1 /\ n <= writable_bytes b1.
Proof.
  intros Hm E. split; [|exact (ensure_post _ _ _ _ E)].
  destruct Hm as [[Hi1 Hi2] Hm].
  destruct (Nat.leb_spec n (writable_bytes b)) as [H1|H1].
  { rewrite ensure_noop in E by exact H1. injection E as <-. repeat split; lia. }
  destruct (Nat.ltb_spec (writable_bytes b + prependable_bytes b) (PREPEND + n)) as [H2|H2].
  - rewrite ensure_grow in E by assumption. injection E as <-.
    unfold inv_margin, inv, writable_bytes, PREPEND in *;
      cbn [read_index write_index data]; rewrite length_resize. lia.
  - destruct (Nat.ltb_spec (read_index b) (length (data b))) as [Hs|Hs].
    + rewrite ensure_compact in E by (try split; assumption). injection E as <-.
      unfold inv_margin, inv, readable_bytes, writable_bytes, prependable_bytes, PREPEND in *;
        cbn [read_index write_index data].
      rewrite length_write_at by (rewrite length_slice; lia). lia.
    + rewrite ensure_compact_oob in E by assumption. discriminate.
Qed.

Lemma make_space_inv (b b1 : Buffer) (n : nat) :
  inv_margin b -> writable_bytes b < n -> make_space n b = Ret tt b1 ->
  inv_margin b1.
Proof.
  destruct b as [r w d]. unfold inv_margin, inv, make_space, PREPEND; munfold.
  intros [[Hi1 Hi2] Hm] Hn.
  assert (Hl : length (write_at d 8 (slice d r (w - r))) = length d
            \/ ~ (8 + (w - r) <= length d /\ r + (w - r) <= length d))
    by (destruct (Nat.le_gt_cases (8 + (w - r)) (length d)); [left | right; lia];
        apply length_write_at; rewrite length_slice; lia).
  pose proof (length_resize (w + n) d).
  mcrush; intros E; try discriminate; injection E as <-;
    cbn [read_index write_index data]; lia.
Qed.

Lemma append_bytes_inv (b b' : Buffer) (bytes : list byte) :
  inv_margin b -> append_bytes bytes b = Ret tt b' -> inv_margin b'.
Proof.
  intros Hm E.
  destruct (list_eq_dec Byte.byte_eq_dec bytes []) as [->|Hne].
  { rewrite append_bytes_nil in E. discriminate. }
  destruct (ensure_writable_bytes (length bytes) b) as [[] b1|k b1] eqn:Ee.
  2:{ unfold append_bytes, bind at 1 in E. rewrite Ee in E. discriminate. }
  rewrite (append_bytes_after_ensure _ _ _ Ee Hne) in E. injection E as <-.
  destruct (ensure_inv _ _ _ Hm Ee) as [[[Hi1 Hi2] Hm1] Hw].
  unfold inv_margin, inv, writable_bytes in *; cbn [read_index write_index data].
  rewrite length_write_at by lia. lia.
Qed.

Lemma prepend_bytes_inv (b b' : Buffer) (bytes : list byte) :
  inv_margin b -> prepend_bytes bytes b = Ret tt b' -> inv_margin b'.
Proof.
  destruct b as [r w d]. unfold inv_margin, inv, prepend_bytes, PREPEND; munfold.
  intros [[Hi1 Hi2] Hm].
  mcrush; intros E; try discriminate. injection E as <-.
  cbn [read_index write_index data]. rewrite length_write_at by lia. lia.
Qed.

Lemma retrieve_inv (b b' : Buffer) (n : nat) :
  inv_margin b -> retrieve n b = Ret tt b' -> inv_margin b'.
Proof.
  destruct b as [r w d]. unfold inv_margin, inv, retrieve, retrieve_all, PREPEND; munfold.
  intros [[Hi1 Hi2] Hm].
  mcrush; intros E; try discriminate; injection E as <-;
    cbn [read_index write_index data]; lia.
Qed.

Lemma retrieve_as_string_retrieve (b b' : Buffer) (n : nat) (s : list byte) :
  retrieve_as_string n b = Ret s b' -> retrieve n b = Ret tt b'.
Proof.
  destruct b as [r w d]. unfold retrieve_as_string; munfold.
  mcrush; try discriminate.
  destruct (retrieve n _) as [[] b1|k b1]; [|discriminate].
  destruct (from_utf8 _); cbv [ret panic]; intros E; [|discriminate].
  now injection E as _ <-.
Qed.

Lemma read_int_retrieve (b b' : Buffer) (w : nat) (x : Z) :
  read_int w b = Ret x b' -> retrieve w b = Ret tt b'.
Proof.
  destruct b as [r w' d]. unfold read_int, peek_int; munfold.
  mcrush; try discriminate.
  destruct (retrieve w _) as [[] b1|k b1]; cbv [ret]; intros Hx; [|discriminate].
  now injection Hx as _ <-.
Qed.

Lemma inv_margin_new (initial : option nat) : inv_margin (new initial).
Proof.
  unfold inv_margin, inv, new, PREPEND; cbn [read_index write_index data].
  unfold zeros. rewrite repeat_length. lia.
Qed.

(** ** The searches *)

Lemma nth_error_in (d : list byte) (i : nat) :
  i < length d -> exists c, nth_error d i = Some c.
Proof.
  intros H. destruct (nth_error d i) as [c|] eqn:E; [eauto|].
  apply nth_error_None in E. lia.
Qed.

Lemma crlf_loop_spec (d : list byte) (i c : nat) :
  c = 0 \/ i + c < length d ->
  exists pos, crlf_loop d i c = Found pos /\ first_crlf d i (i + c + 1) pos.
Proof.
  revert i; induction c as [|c IH]; intros i Hc.
  - exists None. split; [reflexivity|]. cbn. lia.
  - destruct Hc as [Hc|Hc]; [discriminate|].
    destruct (nth_error_in d i ltac:(lia)) as [c1 E1].
    destruct (nth_error_in d (i + 1) ltac:(lia)) as [c2 E2].
    cbn [crlf_loop]. rewrite E1, E2.
    assert (Hnot : (Byte.eqb c1 x0d && Byte.eqb c2 x0a)%bool = false -> ~ crlf_at d i).
    { intros Hf [Ha Hb]. rewrite E1 in Ha; rewrite E2 in Hb.
      injection Ha as ->; injection Hb as ->. discriminate Hf. }
    destruct (Byte.eqb c1 x0d && Byte.eqb c2 x0a)%bool eqn:Et.
    + apply andb_true_iff in Et as [Ea Eb].
      apply byte_dec_bl in Ea, Eb. subst c1 c2.
      exists (Some i). split; [reflexivity|]. cbn.
      split; [lia|]. split; [lia|]. split; [split; assumption|]. intros j Hj; lia.
    + specialize (Hnot eq_refl).
      destruct (IH (S i) ltac:(lia)) as (pos & Ep & Hp).
      exists pos. split; [exact Ep|].
      destruct pos as [k|]; cbn in Hp |- *.
      * destruct Hp as (H1 & H2 & H3 & H4). split; [lia|]. split; [lia|].
        split; [exact H3|]. intros j Hj.
        destruct (Nat.eq_dec j i) as [->|Hji]; [exact Hnot|]. apply H4. lia.
      * intros j Hj1 Hj2.
        destruct (Nat.eq_dec j i) as [->|Hji]; [exact Hnot|]. apply Hp; lia.
Qed.

Lemma do_find_crlf_spec (b : Buffer) (start end_ : nat) :
  start <= end_ -> end_ <= length (data b) -> 1 <= end_ ->
  exists pos, do_find_crlf b start end_ = Found pos /\
    first_crlf (data b) start end_ pos.
Proof.
  intros H1 H2 H3. unfold do_find_crlf.
  destruct (Nat.leb_spec start end_); [|lia].
  destruct (Nat.eqb_spec end_ 0); [lia|]. cbn [negb].
  destruct (Nat.eq_dec start end_) as [->|Hne].
  - replace (end_ - 1 - end_) with 0 by lia. exists None.
    split; [reflexivity|]. cbn. lia.
  - destruct (crlf_loop_spec (data b) start (end_ - 1 - start) ltac:(lia))
      as (pos & Ep & Hp).
    replace (start + (end_ - 1 - start) + 1) with end_ in Hp by lia. eauto.
Qed.

Lemma eol_loop_spec (d : list byte) (i c : nat) :
  i + c <= length d ->
  exists pos, eol_loop d i c = Found pos /\ first_eol d i (i + c) pos.
Proof.
  revert i; induction c as [|c IH]; intros i Hc.
  - exists None. split; [reflexivity|]. cbn. lia.
  - destruct (nth_error_in d i ltac:(lia)) as [c1 E1].
    cbn [eol_loop]. rewrite E1.
    assert (Hnot : Byte.eqb c1 x0a = false -> ~ eol_at d i).
    { intros Hf Ha. unfold eol_at in Ha. rewrite E1 in Ha.
      injection Ha as ->. discriminate Hf. }
    destruct (Byte.eqb c1 x0a) eqn:Et.
    + apply byte_dec_bl in Et. subst c1.
      exists (Some i). split; [reflexivity|]. cbn.
      split; [lia|]. split; [exact E1|]. intros j Hj; lia.
    + specialize (Hnot eq_refl).
      destruct (IH (S i) ltac:(lia)) as (pos & Ep & Hp).
      exists pos. split; [exact Ep|].
      destruct pos as [k|]; cbn in Hp |- *.
      * destruct Hp as (H1 & H3 & H4). split; [lia|].
        split; [exact H3|]. intros j Hj.
        destruct (Nat.eq_dec j i) as [->|Hji]; [exact Hnot|]. apply H4. lia.
      * intros j Hj.
        destruct (Nat.eq_dec j i) as [->|Hji]; [exact Hnot|]. apply Hp; lia.
Qed.

Lemma do_find_eol_spec (b : Buffer) (start end_ : nat) :
  start <= end_ -> end_ <= length (data b) ->
  exists pos, do_find_eol b start end_ = Found pos /\
    first_eol (data b) start end_ pos.
Proof.
  intros H1 H2. unfold do_find_eol.
  destruct (Nat.leb_spec start end_); [|lia]. cbn [negb].
  destruct (eol_loop_spec (data b) start (end_ - start) ltac:(lia)) as (pos & Ep & Hp).
  replace (start + (end_ - start)) with end_ in Hp by lia. eauto.
Qed.

(** ** Readable content of the methods *)

Lemma skipn_slice (v : list byte) (i len n : nat) :
  skipn n (slice v i len) = slice v (i + n) (len - n).
Proof.
  unfold slice. rewrite skipn_firstn_comm, skipn_skipn.
  now replace (n + i) with (i + n) by lia.
Qed.

Lemma firstn_slice (v : list byte) (i len n : nat) :
  firstn n (slice v i len) = slice v i (Nat.min n len).
Proof. unfold slice. now rewrite firstn_firstn. Qed.

Lemma skipn_write_at_after (v : list byte) (i j : nat) (src : list byte) :
  i + length src <= j -> i + length src <= length v ->
  skipn j (write_at v i src) = skipn j v.
Proof.
  intros H1 H2. unfold write_at. rewrite app_assoc, skipn_app.
  assert (Hl : length (firstn i v ++ src) = i + length src)
    by (rewrite length_app, length_firstn; lia).
  rewrite Hl, skipn_all2 by lia. simpl. rewrite skipn_skipn.
  now replace (j - (i + length src) + (i + length src)) with j by lia.
Qed.

Lemma slice_write_at_after (v : list byte) (i j len : nat) (src : list byte) :
  i + length src <= j -> i + length src <= length v ->
  slice (write_at v i src) j len = slice v j len.
Proof.
  intros H1 H2. unfold slice. now rewrite skipn_write_at_after.
Qed.

Lemma slice_two (d : list byte) (i : nat) (a c : byte) :
  nth_error d i = Some a -> nth_error d (i + 1) = Some c -> slice d i 2 = [a; c].
Proof.
  unfold slice. revert d; induction i as [|i IH]; intros [|x d] Ha Hc; try discriminate.
  - destruct d as [|y d]; [discriminate|]. cbn in *. congruence.
  - cbn in *. now apply IH.
Qed.

Lemma length_readable_content (b : Buffer) :
  inv b -> length (readable_content b) = readable_bytes b.
Proof.
  intros [H1 H2]. unfold readable_content, readable_bytes. apply length_slice. lia.
Qed.

(** [retrieve] on the readable content. *)
Lemma retrieve_content (b : Buffer) (n : nat) :
  inv b -> n <= readable_bytes b ->
  exists b', retrieve n b = Ret tt b' /\
    readable_content b' = skipn n (readable_content b).
Proof.
  intros Hi Hn. destruct (Nat.ltb_spec n (readable_bytes b)) as [H|H].
  - rewrite retrieve_part by exact H. eexists; split; [reflexivity|].
    unfold readable_content, readable_bytes in *; cbn [read_index write_index data].
    rewrite skipn_slice. f_equal. lia.
  - rewrite retrieve_full by lia. eexists; split; [reflexivity|].
    rewrite skipn_all2 by (rewrite length_readable_content by exact Hi; lia).
    reflexivity.
Qed.

Lemma retrieve_assert (b : Buffer) (n : nat) :
  readable_bytes b < n -> retrieve n b = Panic AssertionFailed b.
Proof.
  destruct b as [r w d]. unfold retrieve; munfold. intros H. mcrush; reflexivity.
Qed.

Lemma retrieve_until_retrieve (b : Buffer) (e : nat) :
  read_index b <= e <= write_index b ->
  retrieve_until e b = retrieve (e - read_index b) b.
Proof.
  destruct b as [r w d]. unfold retrieve_until; munfold. intros H. mcrush; reflexivity.
Qed.

(** [prepend_bytes] on the readable content. *)
Lemma prepend_content (b : Buffer) (bytes : list byte) :
  inv b -> bytes <> [] -> length bytes <= prependable_bytes b ->
  exists b', prepend_bytes bytes b = Ret tt b' /\ inv b' /\
    readable_content b' = bytes ++ readable_content b /\
    read_index b' = read_index b - length bytes /\
    write_index b' = write_index b /\ length (data b') = length (data b).
Proof.
  intros Hi Hne Hn. destruct b as [r w d].
  assert (H0 : 0 < length bytes) by (destruct bytes; [congruence | simpl; lia]).
  unfold inv, prependable_bytes in *; cbn [read_index write_index data] in *.
  unfold prepend_bytes; munfold.
  assert (Hl : length (write_at d (r - length bytes) bytes) = length d)
    by (apply length_write_at; lia).
  mcrush. eexists; split; [reflexivity|].
  unfold inv, readable_content, readable_bytes; cbn [read_index write_index data].
  replace (w - (r - length bytes)) with (length bytes + (w - r)) by lia.
  rewrite slice_add, slice_write_at_same by lia.
  replace (r - length bytes + length bytes) with r by lia.
  rewrite slice_write_at_after by lia.
  repeat split; lia.
Qed.

Lemma prepend_assert (b : Buffer) (bytes : list byte) :
  prependable_bytes b < length bytes -> prepend_bytes bytes b = Panic AssertionFailed b.
Proof.
  destruct b as [r w d]. unfold prepend_bytes; munfold. intros H. mcrush; reflexivity.
Qed.

(** [peek_int] and [read_int] on the readable content. *)
Lemma peek_int_content (b : Buffer) (w : nat) :
  inv b -> 1 <= w <= readable_bytes b ->
  peek_int w b = Ret (from_be w (firstn w (readable_content b))) b.
Proof.
  destruct b as [r wi d]. unfold inv, readable_content, readable_bytes;
    cbn [read_index write_index data]. intros [H1 H2] Hw.
  rewrite firstn_slice. replace (Nat.min w (wi - r)) with w by lia.
  unfold peek_int; munfold. mcrush. reflexivity.
Qed.

Lemma peek_int_assert (b : Buffer) (w : nat) :
  readable_bytes b < w -> peek_int w b = Panic AssertionFailed b.
Proof.
  destruct b as [r wi d]. unfold peek_int; munfold. intros H. mcrush; reflexivity.
Qed.

Lemma read_int_content (b : Buffer) (w : nat) :
  inv b -> 1 <= w <= readable_bytes b ->
  exists b', read_int w b = Ret (from_be w (firstn w (readable_content b))) b' /\
    readable_content b' = skipn w (readable_content b).
Proof.
  intros Hi Hw. unfold read_int, bind at 1. rewrite peek_int_content by assumption.
  destruct (retrieve_content b w Hi ltac:(lia)) as (b' & E & Hc).
  unfold bind. rewrite E. eexists; split; [reflexivity | exact Hc].
Qed.

Lemma read_int_assert (b : Buffer) (w : nat) :
  readable_bytes b < w -> read_int w b = Panic AssertionFailed b.
Proof.
  intros H. unfold read_int, bind at 1. now rewrite peek_int_assert.
Qed.

(** [retrieve_as_string] on an invalid prefix: it retrieves, then panics. *)
Lemma retrieve_as_string_invalid (b : Buffer) (n : nat) :
  inv b -> n <= readable_bytes b ->
  utf8_valid (slice (data b) (read_index b) n) = false ->
  exists b', retrieve n b = Ret tt b' /\
    retrieve_as_string n b = Panic UnwrapFailed b'.
Proof.
  intros Hi Hr Hu. destruct b as [r w d].
  assert (Hn : 0 < n) by (destruct n; [discriminate | lia]).
  unfold inv, readable_bytes in *; cbn [read_index write_index data] in *.
  unfold retrieve_as_string, zeros. munfold. unfold from_utf8. rewrite Hu.
  rewrite repeat_length. mcrush.
  destruct (retrieve n {| read_index := r; write_index := w; data := d |})
    as [u b'|k b'] eqn:E.
  - exists b'. destruct u. split; reflexivity.
  - exfalso. destruct (Nat.ltb_spec n (w - r)).
    + rewrite retrieve_part in E by (unfold readable_bytes; cbn; lia). discriminate.
    + rewrite retrieve_full in E by (unfold readable_bytes; cbn; lia). discriminate.
Qed.

(** [ensure_writable_bytes] never shortens the storage of a buffer that
    keeps the invariant. *)
Lemma ensure_length (b b' : Buffer) (n : nat) :
  inv b -> ensure_writable_bytes n b = Ret tt b' -> length (data b) <= length (data b').
Proof.
  intros Hi E. destruct (Nat.leb_spec n (writable_bytes b)) as [H1|H1].
  { rewrite ensure_noop in E by exact H1. injection E as <-. lia. }
  destruct (Nat.ltb_spec (writable_bytes b + prependable_bytes b) (PREPEND + n)) as [H2|H2].
  - rewrite ensure_grow in E by assumption. injection E as <-. cbn [data].
    rewrite length_resize. destruct Hi. unfold writable_bytes in *. lia.
  - destruct (Nat.ltb_spec (read_index b) (length (data b))) as [Hs|Hs].
    + rewrite ensure_compact in E by assumption. injection E as <-. cbn [data].
      destruct Hi. unfold readable_bytes.
      rewrite length_write_at by (rewrite length_slice; unfold writable_bytes,
        prependable_bytes, PREPEND in *; lia). lia.
    + rewrite ensure_compact_oob in E by assumption. discriminate.
Qed.

(** * The claims *)

(** ** C5 *)

(** C5: for every buffer and every [n <= readable_bytes()], [retrieve(n)]
    returns; if [n < readable_bytes()] it advances [read_index] by [n] and
    leaves [write_index] and the storage as they were; if
    [n = readable_bytes()] it resets both cursors to [PREPEND], so that
    [prependable_bytes() = PREPEND]. *)
Theorem retrieve_advances_or_resets (b : Buffer) (n : nat) :
  inv b -> n <= readable_bytes b ->
  exists b', retrieve n b = Ret tt b' /\
    (n < readable_bytes b ->
       read_index b' = read_index b + n /\ write_index b' = write_index b /\
       data b' = data b) /\
    (n = readable_bytes b ->
       read_index b' = PREPEND /\ write_index b' = PREPEND /\
       prependable_bytes b' = PREPEND).
Proof.
  intros _ Hn. destruct (Nat.ltb_spec n (readable_bytes b)) as [H|H].
  - rewrite retrieve_part by exact H. eexists; split; [reflexivity|].
    split; [auto | intros; lia].
  - rewrite retrieve_full by lia. eexists; split; [reflexivity|].
    split; [intros; lia | auto].
Qed.

Lemma retrieve_advances_or_resets_witness :
  exists b', retrieve 50 (mkBuffer 8 208 (zeros 1032)) = Ret tt b' /\
    read_index b' = 58 /\ write_index b' = 208 /\ data b' = zeros 1032.
Proof.
  destruct (retrieve_advances_or_resets (mkBuffer 8 208 (zeros 1032)) 50)
    as (b' & E & Hlt & _); [vm_compute; split; lia | vm_compute; lia |].
  exists b'. split; [exact E|]. apply Hlt. vm_compute. lia.
Defined.

(** ** C4 *)

(** C4: when [ensure_writable_bytes(n)] takes the growth path
    ([writable_bytes() < n] and
    [writable_bytes() + prependable_bytes() < PREPEND + n]), it returns
    with a storage of length exactly [write_index + n] and both cursors
    unchanged, for every [n] with [write_index + n] within the largest
    length of a [Vec<u8>]. *)
Theorem ensure_growth_exact (b : Buffer) (n : nat) :
  inv b -> fits_vec (write_index b + n) -> writable_bytes b < n ->
  writable_bytes b + prependable_bytes b < PREPEND + n ->
  exists b', ensure_writable_bytes n b = Ret tt b' /\
    length (data b') = write_index b + n /\
    read_index b' = read_index b /\ write_index b' = write_index b.
Proof.
  intros _ _ H1 H2. rewrite ensure_grow by assumption.
  eexists; split; [reflexivity|]. cbn [read_index write_index data].
  rewrite length_resize. auto.
Qed.

Lemma ensure_growth_exact_witness :
  exists b', ensure_writable_bytes 2000 (new None) = Ret tt b' /\
    length (data b') = 8 + 2000 /\ read_index b' = 8 /\ write_index b' = 8.
Proof.
  apply (ensure_growth_exact (new None) 2000);
    [vm_compute; split; lia | apply N.leb_le; vm_compute; reflexivity |
     vm_compute; lia | vm_compute; lia].
Defined.

(** ** C2 *)

(** C2: the buffer [read_index = write_index = 20] over a storage of 20
    bytes satisfies the invariant, yet [ensure_writable_bytes(5)] takes the
    compaction path of [make_space] and panics: with no readable byte,
    [ptr::copy] is asked to move 0 bytes, but its source argument
    [&self.data[self.read_index]] indexes position 20 of the 20-byte
    vector.  No call returns with [writable_bytes() >= 5]. *)
Lemma ensure_writable_counterexample :
  let b := mkBuffer 20 20 (zeros 20) in
  inv b /\ writable_bytes b < 5 /\
  PREPEND + 5 <= writable_bytes b + prependable_bytes b /\
  ensure_writable_bytes 5 b = Panic IndexOutOfBounds b.
Proof.
  intros b. vm_compute. split; [split; lia|]. split; [lia|]. split; [lia|].
  reflexivity.
Qed.

(** ** C3 *)

(** C3: on a buffer with [prependable_bytes() > PREPEND], an append of
    [n <= writable_bytes() + (prependable_bytes() - PREPEND)] bytes that
    returns leaves the storage length unchanged, makes the readable
    content the old one followed by the appended bytes, and sets
    [read_index] to [PREPEND] when it compacted ([writable_bytes() < n]),
    leaving [read_index] alone otherwise. *)
Theorem append_compacts_in_place (b b' : Buffer) (bytes : list byte) :
  inv b -> PREPEND < prependable_bytes b ->
  length bytes <= writable_bytes b + (prependable_bytes b - PREPEND) ->
  append_bytes bytes b = Ret tt b' ->
  length (data b') = length (data b) /\
  readable_content b' = readable_content b ++ bytes /\
  (writable_bytes b < length bytes -> read_index b' = PREPEND) /\
  (length bytes <= writable_bytes b -> read_index b' = read_index b).
Proof.
  intros Hi Hp Hn Ha.
  destruct (list_eq_dec Byte.byte_eq_dec bytes []) as [->|Hne].
  { rewrite append_bytes_nil in Ha. discriminate. }
  assert (Hn0 : 0 < length bytes) by (destruct bytes; [congruence | simpl; lia]).
  destruct (Nat.ltb_spec (read_index b) (length (data b))) as [Hs|Hs].
  2:{ exfalso. destruct Hi as [Hi1 Hi2].
      unfold append_bytes, bind at 1 in Ha.
      rewrite ensure_compact_oob in Ha
        by (unfold writable_bytes, prependable_bytes, PREPEND in *; lia).
      discriminate. }
  destruct (ensure_ok b (length bytes) Hi (or_introl Hs))
    as (b1 & He & Hi1 & _ & _ & Hc1 & _).
  destruct (append_bytes_spec b b1 bytes Hi1 He Hne) as (b2 & E2 & _ & Hl2 & Hr2 & _ & Hc2).
  rewrite E2 in Ha. injection Ha as <-.
  rewrite Hc2, Hc1, Hl2, Hr2.
  destruct (Nat.leb_spec (length bytes) (writable_bytes b)) as [Hw|Hw].
  - rewrite ensure_noop in He by exact Hw. injection He as <-.
    repeat split; lia.
  - rewrite ensure_compact in He
      by (try assumption; unfold writable_bytes, prependable_bytes, PREPEND in *; lia).
    injection He as <-. cbn [read_index write_index data].
    destruct Hi as [Hi1' Hi2'].
    rewrite length_write_at
      by (rewrite length_slice; unfold readable_bytes, prependable_bytes, PREPEND in *; lia).
    repeat split; lia.
Qed.

Lemma append_compacts_in_place_witness :
  let b0 := final (run [OpAppendBytes (repeat "y"%byte 800); OpRetrieve 500]
                     (new None)) in
  let b' := final (append_bytes (repeat "z"%byte 300) b0) in
  append_bytes (repeat "z"%byte 300) b0 = Ret tt b' /\
  length (data b') = 1032 /\
  readable_content b' = repeat "y"%byte 300 ++ repeat "z"%byte 300 /\
  read_index b' = PREPEND.
Proof.
  intros b0 b'.
  assert (Ea : append_bytes (repeat "z"%byte 300) b0 = Ret tt b')
    by (vm_compute; reflexivity).
  destruct (append_compacts_in_place b0 b' (repeat "z"%byte 300))
    as (H1 & H2 & H3 & _);
    [vm_compute; split; lia | vm_compute; lia | vm_compute; lia | exact Ea |].
  split; [exact Ea|]. split; [exact H1|]. split; [exact H2|].
  apply H3. vm_compute. lia.
Defined.

(** ** C6 *)

(** C6: for every width W in {8, 16, 32, 64} and every value [v] of [iW],
    [append_intW(v)] followed by [read_intW()] returns [v]; the appended
    bytes are the big-endian two's-complement bytes of [v].  The buffer is
    one with no readable bytes (such as a new or drained one), so that
    [read_intW] consumes the bytes the append wrote. *)
Theorem int_roundtrip (wd : width) (b : Buffer) (x : Z) :
  inv b -> read_index b < length (data b) \/ read_index b <= PREPEND ->
  readable_bytes b = 0 -> in_int_range (width_bytes wd) x ->
  exists b1 b2, append_intW wd x b = Ret tt b1 /\
    readable_content b1 = be_bytes (width_bytes wd) x /\
    read_intW wd b1 = Ret x b2.
Proof.
  intros Hi Hs H0 Hx.
  assert (Hw : (1 <= width_bytes wd)%nat) by (destruct wd; simpl; lia).
  destruct (int_roundtrip_gen b (width_bytes wd) x Hi Hs H0 Hw Hx)
    as (b1 & b2 & E1 & Hc & E2 & _).
  exists b1, b2. destruct wd; auto.
Qed.

Lemma int_roundtrip_witness :
  exists b1 b2, append_intW W32 (-1)%Z (new None) = Ret tt b1 /\
    readable_content b1 = be_bytes 4 (-1)%Z /\
    read_intW W32 b1 = Ret (-1)%Z b2.
Proof.
  apply (int_roundtrip W32 (new None) (-1)%Z);
    [vm_compute; split; lia | vm_compute; right; lia | vm_compute; reflexivity
    | unfold in_int_range; simpl; lia].
Defined.

(** ** C7 *)

(** C7, counterexample: on a buffer that already holds the readable bytes
    "ab", [append_string("cd")] followed by [retrieve_as_string(2)]
    returns "ab", the oldest bytes, not "cd". *)
Lemma string_roundtrip_counterexample :
  ~ (forall (b : Buffer) (s : list byte), inv b -> utf8_valid s = true ->
       exists b1 b2, append_string s b = Ret tt b1 /\
         retrieve_as_string (length s) b1 = Ret s b2 /\
         readable_bytes b2 = readable_bytes b).
Proof.
  intros H.
  destruct (H (final (run [OpAppendString ["a"; "b"]%byte] (new None)))
              ["c"; "d"]%byte) as (b1 & b2 & E1 & E2 & _).
  { vm_compute. split; lia. }
  { reflexivity. }
  vm_compute in E1. injection E1 as <-.
  vm_compute in E2. discriminate.
Qed.

(** C7 (amended): for every buffer with no readable bytes (satisfying the
    invariant, with [read_index] below the storage length or at most
    [PREPEND]) and every non-empty string [s] of length [L],
    [append_string(s)] then [retrieve_as_string(L)] returns [s], and
    [readable_bytes()] is back to its value before the append. *)
Theorem string_roundtrip (b : Buffer) (s : list byte) :
  inv b -> read_index b < length (data b) \/ read_index b <= PREPEND ->
  readable_bytes b = 0 -> utf8_valid s = true -> s <> [] ->
  exists b1 b2, append_string s b = Ret tt b1 /\
    retrieve_as_string (length s) b1 = Ret s b2 /\
    readable_bytes b2 = readable_bytes b.
Proof.
  intros Hi Hs H0 Hu Hne.
  destruct (append_ok b s Hi Hs Hne) as (b1 & E1 & Hi1 & Hr1 & Hc1 & Hl1).
  assert (Hc : readable_content b1 = s).
  { rewrite Hc1. unfold readable_content. rewrite H0. reflexivity. }
  rewrite H0 in Hr1. simpl in Hr1.
  assert (Hn : 0 < length s) by (destruct s; [congruence | simpl; lia]).
  assert (Hsl : slice (data b1) (read_index b1) (length s) = s)
    by (rewrite <- Hr1; exact Hc).
  destruct (retrieve_as_string_valid b1 (length s) Hi1 Hn ltac:(lia)
              ltac:(rewrite Hsl; exact Hu)) as (b2 & E2 & E3).
  rewrite Hsl in E3.
  rewrite retrieve_full in E2 by lia. injection E2 as <-.
  exists b1, (mkBuffer PREPEND PREPEND (data b1)).
  unfold append_string. repeat split; try assumption.
  rewrite H0. reflexivity.
Qed.

Lemma string_roundtrip_witness :
  exists b1 b2, append_string ["h"; "i"]%byte (new None) = Ret tt b1 /\
    retrieve_as_string 2 b1 = Ret ["h"; "i"]%byte b2 /\
    readable_bytes b2 = readable_bytes (new None).
Proof.
  apply (string_roundtrip (new None) ["h"; "i"]%byte);
    [vm_compute; split; lia | vm_compute; right; lia | reflexivity
    | reflexivity | discriminate].
Defined.

(** ** C8 *)

(** C8, counterexample: after [append_int16(-1)] the readable bytes are
    [0xFF 0xFF].  [retrieve_as_string(1)] on them returns no error value:
    it panics in [String::from_utf8(..).unwrap()], and by then [retrieve]
    has already moved [read_index] from 8 to 9. *)
Lemma retrieve_as_string_invalid_counterexample :
  let b0 := final (run [OpAppendInt W16 (-1)%Z] (new None)) in
  inv b0 /\ 1 <= readable_bytes b0 /\
  utf8_valid (slice (data b0) (read_index b0) 1) = false /\
  exists b', retrieve_as_string 1 b0 = Panic UnwrapFailed b' /\
    read_index b0 = 8 /\ read_index b' = 9.
Proof.
  vm_compute. split; [split; lia|]. split; [lia|]. split; [reflexivity|].
  eexists; split; [reflexivity|]. split; reflexivity.
Qed.

(** C8 (amended): for every buffer and every [n <= readable_bytes()] such
    that the first [n] readable bytes are not valid UTF-8,
    [retrieve_as_string(n)] reports no decode error to the caller: it
    panics on the [unwrap] of the failed decode, after [retrieve(n)] has
    already run, so the buffer at the panic is the one [retrieve(n)]
    leaves. *)
Theorem retrieve_as_string_invalid_panics (b : Buffer) (n : nat) :
  inv b -> n <= readable_bytes b ->
  utf8_valid (slice (data b) (read_index b) n) = false ->
  exists b', retrieve n b = Ret tt b' /\
    retrieve_as_string n b = Panic UnwrapFailed b'.
Proof.
  intros Hi Hr Hu. destruct b as [r w d].
  assert (Hn : 0 < n) by (destruct n; [discriminate | lia]).
  unfold inv, readable_bytes in *; cbn [read_index write_index data] in *.
  unfold retrieve_as_string, zeros. munfold. unfold from_utf8. rewrite Hu.
  rewrite repeat_length. mcrush.
  destruct (retrieve n {| read_index := r; write_index := w; data := d |})
    as [u b'|k b'] eqn:E.
  - exists b'. destruct u. split; reflexivity.
  - exfalso. destruct (Nat.ltb_spec n (w - r)).
    + rewrite retrieve_part in E by (unfold readable_bytes; cbn; lia). discriminate.
    + rewrite retrieve_full in E by (unfold readable_bytes; cbn; lia). discriminate.
Qed.

Lemma retrieve_as_string_invalid_panics_witness :
  let b0 := final (run [OpAppendInt W16 (-1)%Z] (new None)) in
  exists b', retrieve 1 b0 = Ret tt b' /\
    retrieve_as_string 1 b0 = Panic UnwrapFailed b'.
Proof.
  apply retrieve_as_string_invalid_panics;
    [vm_compute; split; lia | vm_compute; lia | vm_compute; reflexivity].
Defined.

(** ** C9 *)

(** C9, counterexample: a new buffer holding the one readable byte "a"
    is shrunk with [shrink(0)].  The replacement buffer comes from
    [Buffer::new(None)], so its storage keeps 1032 bytes and
    [writable_bytes()] is 1023, not 0. *)
Lemma shrink_fits_counterexample :
  ~ (forall (b : Buffer) (reserve : nat), inv b ->
       exists b', shrink reserve b = Ret tt b' /\
         readable_content b' = readable_content b /\
         writable_bytes b' = reserve /\
         length (data b') = PREPEND + readable_bytes b + reserve).
Proof.
  intros H.
  destruct (H (final (run [OpAppendString ["a"]%byte] (new None))) 0)
    as (b' & E & _ & Hw & _).
  { vm_compute. split; lia. }
  vm_compute in E. injection E as <-.
  vm_compute in Hw. discriminate.
Qed.

(** C9 (amended): for every buffer whose readable content is non-empty
    valid UTF-8 and every [reserve], [shrink(reserve)] returns with the
    same readable content starting at [read_index = PREPEND] in a storage
    of [PREPEND + max(INITIAL, readable_bytes() + reserve)] bytes, so
    [writable_bytes() = max(INITIAL, readable_bytes() + reserve) -
    readable_bytes()]; this equals [reserve] only when
    [readable_bytes() + reserve >= INITIAL].  The [reserve] is such that
    [PREPEND + readable_bytes() + reserve] is within the largest length of
    a [Vec<u8>]. *)
Theorem shrink_fits (b : Buffer) (reserve : nat) :
  inv b -> fits_vec (PREPEND + readable_bytes b + reserve) ->
  0 < readable_bytes b -> utf8_valid (readable_content b) = true ->
  exists b', shrink reserve b = Ret tt b' /\
    readable_content b' = readable_content b /\ read_index b' = PREPEND /\
    length (data b') = PREPEND + Nat.max INITIAL (readable_bytes b + reserve) /\
    writable_bytes b' = Nat.max INITIAL (readable_bytes b + reserve) - readable_bytes b.
Proof.
  intros Hi _ Hr Hu.
  destruct (ensure_fresh (readable_bytes b + reserve)) as (d1 & E1 & Hl1).
  destruct (retrieve_as_string_valid b (readable_bytes b) Hi Hr ltac:(lia) Hu)
    as (b1 & _ & E2).
  set (s := slice (data b) (read_index b) (readable_bytes b)) in *.
  assert (Hls : length s = readable_bytes b).
  { destruct Hi. apply length_slice. unfold readable_bytes in *. lia. }
  assert (Hne : s <> []) by (intros E; rewrite E in Hls; simpl in Hls; lia).
  assert (Ee : ensure_writable_bytes (length s) (mkBuffer PREPEND PREPEND d1)
               = Ret tt (mkBuffer PREPEND PREPEND d1)).
  { apply ensure_noop. unfold writable_bytes, PREPEND, INITIAL in *.
    cbn [write_index data]. lia. }
  pose proof (append_bytes_after_ensure _ _ _ Ee Hne) as E3.
  cbn [read_index write_index data] in E3.
  unfold shrink. rewrite E1. unfold retrieve_all_as_string, bind at 1, get.
  rewrite E2. unfold append_string. rewrite E3. cbn [fst swap].
  eexists; split; [reflexivity|].
  unfold readable_content, writable_bytes, readable_bytes;
    cbn [read_index write_index data].
  rewrite length_write_at by (unfold PREPEND, INITIAL in *; lia).
  replace (PREPEND + length s - PREPEND) with (length s) by lia.
  rewrite slice_write_at_same by (unfold PREPEND in *; lia).
  fold (readable_bytes b). fold s.
  repeat split; unfold PREPEND, INITIAL in *; lia.
Qed.

Lemma shrink_fits_witness :
  let b0 := final (run [OpAppendString (repeat "y"%byte 2000); OpRetrieve 1500]
                     (new None)) in
  exists b', shrink 0 b0 = Ret tt b' /\
    readable_content b' = readable_content b0 /\ read_index b' = PREPEND /\
    length (data b') = PREPEND + Nat.max INITIAL (readable_bytes b0 + 0) /\
    writable_bytes b' = Nat.max INITIAL (readable_bytes b0 + 0) - readable_bytes b0.
Proof.
  apply shrink_fits;
    [vm_compute; split; lia | apply N.leb_le; vm_compute; reflexivity |
     vm_compute; lia | vm_compute; reflexivity].
Defined.

(** ** C10 *)

(** C10: every zero-length byte operation panics with an out-of-bounds
    index and leaves the buffer as it was: [append_bytes] and
    [append_string] of an empty slice, [prepend_bytes] of an empty slice,
    [retrieve_as_string(0)], and, on a buffer with no readable bytes,
    [retrieve_all_as_string()] and [shrink(reserve)] (for a [reserve] with
    [PREPEND + reserve] within the largest length of a [Vec<u8>]).  The index is [0]
    into the empty slice, except in [retrieve_as_string(0)] when
    [read_index = data.len()], where [self.peek()] indexes the storage
    first. *)
Theorem zero_length_ops_panic (b : Buffer) :
  inv b ->
  append_bytes [] b = Panic IndexOutOfBounds b /\
  append_string [] b = Panic IndexOutOfBounds b /\
  prepend_bytes [] b = Panic IndexOutOfBounds b /\
  retrieve_as_string 0 b = Panic IndexOutOfBounds b /\
  (readable_bytes b = 0 ->
     retrieve_all_as_string b = Panic IndexOutOfBounds b /\
     forall reserve, fits_vec (PREPEND + reserve) ->
       shrink reserve b = Panic IndexOutOfBounds b).
Proof.
  intros _.
  split; [apply append_bytes_nil|]. split; [apply append_bytes_nil|].
  split; [apply prepend_bytes_nil|]. split; [apply retrieve_as_string_zero|].
  intros H0.
  assert (Ea : retrieve_all_as_string b = Panic IndexOutOfBounds b).
  { unfold retrieve_all_as_string, bind, get. rewrite H0. apply retrieve_as_string_zero. }
  split; [exact Ea|]. intros reserve _.
  destruct (ensure_fresh (readable_bytes b + reserve)) as (d1 & E1 & _).
  unfold shrink. rewrite E1, Ea. reflexivity.
Qed.

Lemma zero_length_ops_panic_witness :
  append_bytes [] (new None) = Panic IndexOutOfBounds (new None) /\
  append_string [] (new None) = Panic IndexOutOfBounds (new None) /\
  prepend_bytes [] (new None) = Panic IndexOutOfBounds (new None) /\
  retrieve_as_string 0 (new None) = Panic IndexOutOfBounds (new None) /\
  retrieve_all_as_string (new None) = Panic IndexOutOfBounds (new None) /\
  shrink 5 (new None) = Panic IndexOutOfBounds (new None).
Proof.
  destruct (zero_length_ops_panic (new None)) as (H1 & H2 & H3 & H4 & H5);
    [vm_compute; split; lia |].
  destruct (H5 ltac:(reflexivity)) as (H6 & H7).
  refine (conj H1 (conj H2 (conj H3 (conj H4 (conj H6 (H7 5 _)))))).
  apply N.leb_le. vm_compute. reflexivity.
Defined.

(** ** C1 *)

(** C1: the invariant [0 <= read_index <= write_index <= data.len()] is
    not preserved by every public call.  From [Buffer::new(Some(0))]
    (storage of 8 bytes), [prepend_bytes] of 8 bytes, [unwrite(8)] and
    [make_space(1)] reach a buffer with both cursors at 0 over a storage of
    1 byte: [make_space] takes its growth branch since
    [writable_bytes() + prependable_bytes() = 8 < PREPEND + 1], and
    [data.resize(write_index + 1)] shrinks the storage.  That buffer
    satisfies the invariant, and [retrieve_all()] then sets both cursors
    to [PREPEND = 8] past the end of the 1-byte storage. *)
Theorem retrieve_all_breaks_invariant :
  let trace := [OpPrependBytes (zeros 8); OpUnwrite 8; OpMakeSpace 1] in
  let b := final (run trace (new (Some 0))) in
  run trace (new (Some 0)) = Ret tt (mkBuffer 0 0 [x00]) /\
  reachable b /\ inv b /\
  retrieve_all b = Ret tt (mkBuffer PREPEND PREPEND [x00]) /\
  ~ inv (mkBuffer PREPEND PREPEND [x00]).
Proof.
  intros trace b.
  assert (E : run trace (new (Some 0)) = Ret tt (mkBuffer 0 0 [x00]))
    by (vm_compute; reflexivity).
  assert (Hb : b = mkBuffer 0 0 [x00]) by (unfold b; rewrite E; reflexivity).
  split; [exact E|]. split.
  { apply (run_reachable trace (new (Some 0))); [constructor | rewrite E, Hb; reflexivity]. }
  rewrite Hb. split; [unfold inv; cbn; lia|]. split; [reflexivity|].
  unfold inv, PREPEND; cbn. lia.
Qed.

(** * Further properties of the code *)

(** X1: on a buffer satisfying the invariant whose storage holds the
    prepend margin, every public call that returns with its sizes in range
    ([call_in_range]), [read_from] with any stream, and [swap] with another
    such buffer leave buffers with the same two properties; [new] builds
    one for every initial size within [VEC_MAX]. *)
Theorem calls_preserve_inv (b : Buffer) :
  inv_margin b ->
  (forall (o : op) (b' : Buffer),
     call_in_range o b -> exec o b = Ret tt b' -> inv_margin b') /\
  (forall (E : Type) (stream_read : list byte -> io_result E (nat * list byte))
          (r : io_result E nat) (b' : Buffer),
     read_from stream_read b = Ret r b' -> inv_margin b') /\
  (forall other, inv_margin other ->
     inv_margin (fst (swap b other)) /\ inv_margin (snd (swap b other))) /\
  (forall initial, (forall size, initial = Some size -> fits_vec (PREPEND + size)) ->
     inv_margin (new initial)).
Proof.
  intros Hm. split; [|split; [|split]].
  2:{ intros E0 stream_read r b' E. revert E. unfold read_from.
      destruct (stream_read (zeros 65536)) as [[received bytes]|e].
      2:{ cbv [ret]. intros E. injection E as _ <-. exact Hm. }
      unfold bind at 1. destruct (Nat.leb_spec received (length bytes));
        cbv [ret panic]; [|discriminate].
      unfold bind at 1.
      destruct (append_bytes (firstn received bytes) b) as [[] b1|k b1] eqn:Ea;
        [|discriminate].
      cbv [ret]. intros E. injection E as _ <-. exact (append_bytes_inv _ _ _ Hm Ea). }
  2:{ intros other Ho. cbn [swap fst snd]. split; assumption. }
  2:{ intros initial _. apply inv_margin_new. }
  intros o b' Hrange E.
  destruct o as [bs|bs|wd x|bs|wd x|n|e| |n| |wd|n|n|n|n|n]; cbn [exec] in E.
  - exact (append_bytes_inv _ _ _ Hm E).
  - exact (append_bytes_inv _ _ _ Hm E).
  - destruct wd; exact (append_bytes_inv _ _ _ Hm E).
  - exact (prepend_bytes_inv _ _ _ Hm E).
  - destruct wd; exact (prepend_bytes_inv _ _ _ Hm E).
  - exact (retrieve_inv _ _ _ Hm E).
  - revert E. destruct b as [r w d]. unfold retrieve_until; munfold. mcrush;
      intros E; try discriminate; exact (retrieve_inv _ _ _ Hm E).
  - revert E. unfold retrieve_all; munfold. intros E. injection E as <-.
    destruct Hm as [_ Hm]. unfold inv_margin, inv in *; cbn [read_index write_index data]. lia.
  - revert E. unfold bind at 1.
    destruct (retrieve_as_string n b) as [s b1|k b1] eqn:Es; cbv [ret]; intros E; [|discriminate].
    injection E as <-. exact (retrieve_inv _ _ _ Hm (retrieve_as_string_retrieve _ _ _ _ Es)).
  - revert E. unfold bind at 1, retrieve_all_as_string; munfold.
    destruct (retrieve_as_string _ b) as [s b1|k b1] eqn:Es; cbv [ret]; intros E; [|discriminate].
    injection E as <-. exact (retrieve_inv _ _ _ Hm (retrieve_as_string_retrieve _ _ _ _ Es)).
  - revert E. unfold bind at 1.
    destruct (read_intW wd b) as [x b1|k b1] eqn:Es; cbv [ret]; intros E; [|discriminate].
    injection E as <-. destruct wd;
      exact (retrieve_inv _ _ _ Hm (read_int_retrieve _ _ _ _ Es)).
  - revert E. destruct b as [r w d]. unfold has_written; munfold.
    destruct Hm as [[Hi1 Hi2] Hm]. unfold inv_margin, inv in *.
    mcrush; intros E; try discriminate; injection E as <-; cbn [read_index write_index data]; lia.
  - revert E. destruct b as [r w d]. unfold unwrite; munfold.
    destruct Hm as [[Hi1 Hi2] Hm]. unfold inv_margin, inv in *.
    mcrush; intros E; try discriminate; injection E as <-; cbn [read_index write_index data]; lia.
  - exact (proj1 (ensure_inv _ _ _ Hm E)).
  - exact (make_space_inv _ _ _ Hm (proj1 Hrange) E).
  - revert E. unfold shrink.
    destruct (ensure_writable_bytes _ (new None)) as [[] o1|k o1] eqn:Ee; [|discriminate].
    destruct (retrieve_all_as_string b) as [s b1|k b1]; [|discriminate].
    destruct (append_string s o1) as [[] o2|k o2] eqn:Ea; [|discriminate].
    intros E. injection E as <-. cbn [swap fst].
    exact (append_bytes_inv _ _ _ (proj1 (ensure_inv _ _ _ (inv_margin_new None) Ee)) Ea).
Qed.

Lemma calls_preserve_inv_witness :
  let b' := final (exec (OpMakeSpace 2000) (new None)) in inv_margin b'.
Proof.
  intros b'.
  apply (proj1 (calls_preserve_inv (new None) ltac:(vm_compute; repeat split; lia))
    (OpMakeSpace 2000) b').
  - split; [vm_compute; lia | apply N.leb_le; vm_compute; reflexivity].
  - vm_compute. reflexivity.
Defined.

(** X2: on a buffer satisfying the invariant, [find_crlf] panics with a
    subtraction overflow exactly when [write_index = 0]; otherwise it
    returns the position in the storage of the first CRLF pair lying in the
    readable bytes, or [None] when they hold none. *)
Theorem find_crlf_first (b : Buffer) :
  inv b ->
  (write_index b = 0 /\ find_crlf b = SubtractOverflow) \/
  (1 <= write_index b /\ exists pos, find_crlf b = Found pos /\
     first_crlf (data b) (read_index b) (write_index b) pos).
Proof.
  intros [Hi1 Hi2]. unfold find_crlf.
  destruct (Nat.eq_dec (write_index b) 0) as [E|E].
  - left. split; [exact E|]. unfold do_find_crlf. rewrite E.
    replace (read_index b) with 0 by lia. reflexivity.
  - right. split; [lia|]. apply do_find_crlf_spec; lia.
Qed.

Lemma find_crlf_first_witness :
  exists pos, find_crlf sample_line = Found pos /\ first_crlf (data sample_line) 8 14 pos.
Proof.
  destruct (find_crlf_first sample_line) as [[E _]|[_ H]];
    [vm_compute; split; lia | discriminate E | exact H].
Defined.

(** X3: on a buffer satisfying the invariant, [find_crlf_from(start)]
    fails its assertion when [start] lies outside
    [[read_index, write_index]]; inside, it overflows when
    [write_index = 0] and otherwise returns the first CRLF pair lying in
    [[start, write_index)], or [None]. *)
Theorem find_crlf_from_spec (b : Buffer) (start : nat) :
  inv b ->
  (start < read_index b \/ write_index b < start ->
     find_crlf_from b start = SearchPanic AssertionFailed) /\
  (read_index b <= start <= write_index b ->
     (write_index b = 0 /\ find_crlf_from b start = SubtractOverflow) \/
     (1 <= write_index b /\ exists pos, find_crlf_from b start = Found pos /\
        first_crlf (data b) start (write_index b) pos)).
Proof.
  intros [Hi1 Hi2]. unfold find_crlf_from. split.
  - intros H. destruct (Nat.leb_spec (read_index b) start); [|reflexivity].
    destruct (Nat.leb_spec start (write_index b)); [lia|reflexivity].
  - intros H. destruct (Nat.leb_spec (read_index b) start); [|lia].
    destruct (Nat.leb_spec start (write_index b)); [|lia]. cbn [negb].
    destruct (Nat.eq_dec (write_index b) 0) as [E|E].
    + left. split; [exact E|]. unfold do_find_crlf. rewrite E.
      replace start with 0 by lia. reflexivity.
    + right. split; [lia|]. apply do_find_crlf_spec; lia.
Qed.

Lemma find_crlf_from_spec_witness :
  exists pos, find_crlf_from sample_line 9 = Found pos /\
    first_crlf (data sample_line) 9 14 pos.
Proof.
  destruct (proj2 (find_crlf_from_spec sample_line 9 ltac:(vm_compute; split; lia))
    ltac:(vm_compute; split; lia)) as [[E _]|[_ H]]; [discriminate E | exact H].
Defined.

(** X4: on a buffer satisfying the invariant, [find_eol] returns the
    position of the first ['\n'] among the readable bytes, or [None]; it
    never panics. *)
Theorem find_eol_first (b : Buffer) :
  inv b ->
  exists pos, find_eol b = Found pos /\
    first_eol (data b) (read_index b) (write_index b) pos.
Proof.
  intros [Hi1 Hi2]. apply do_find_eol_spec; lia.
Qed.

Lemma find_eol_first_witness :
  exists pos, find_eol sample_line = Found pos /\ first_eol (data sample_line) 8 14 pos.
Proof.
  apply (find_eol_first sample_line). vm_compute. split; lia.
Defined.

(** X5: on a buffer satisfying the invariant, [find_eol_from(start)] fails
    its assertion when [start] lies outside [[read_index, write_index]];
    inside, it returns the first ['\n'] in [[start, write_index)], or
    [None]. *)
Theorem find_eol_from_spec (b : Buffer) (start : nat) :
  inv b ->
  (start < read_index b \/ write_index b < start ->
     find_eol_from b start = SearchPanic AssertionFailed) /\
  (read_index b <= start <= write_index b ->
     exists pos, find_eol_from b start = Found pos /\
       first_eol (data b) start (write_index b) pos).
Proof.
  intros [Hi1 Hi2]. unfold find_eol_from. split.
  - intros H. destruct (Nat.leb_spec (read_index b) start); [|reflexivity].
    destruct (Nat.leb_spec start (write_index b)); [lia|reflexivity].
  - intros H. destruct (Nat.leb_spec (read_index b) start); [|lia].
    destruct (Nat.leb_spec start (write_index b)); [|lia]. cbn [negb].
    apply do_find_eol_spec; lia.
Qed.

Lemma find_eol_from_spec_witness :
  exists pos, find_eol_from sample_line 12 = Found pos /\
    first_eol (data sample_line) 12 14 pos.
Proof.
  apply (proj2 (find_eol_from_spec sample_line 12 ltac:(vm_compute; split; lia))).
  vm_compute. split; lia.
Defined.

(** X6: [retrieve(n)] on a buffer satisfying the invariant fails its
    assertion, leaving the buffer unchanged, when [n > readable_bytes()];
    otherwise it drops the first [n] readable bytes. *)
Theorem retrieve_drops (b : Buffer) (n : nat) :
  inv b ->
  (readable_bytes b < n -> retrieve n b = Panic AssertionFailed b) /\
  (n <= readable_bytes b ->
     exists b', retrieve n b = Ret tt b' /\
       readable_content b' = skipn n (readable_content b)).
Proof.
  intros Hi. split; [apply retrieve_assert | apply retrieve_content; exact Hi].
Qed.

Lemma retrieve_drops_witness :
  exists b', retrieve 3 sample_line = Ret tt b' /\
    readable_content b' = skipn 3 (readable_content sample_line).
Proof.
  apply (proj2 (retrieve_drops sample_line 3 ltac:(vm_compute; split; lia))).
  vm_compute. lia.
Defined.

(** X7: [retrieve_until(end)] on a buffer satisfying the invariant fails
    its assertion, leaving the buffer unchanged, when [end] lies outside
    [[read_index, write_index]]; otherwise it drops the readable bytes
    before position [end]. *)
Theorem retrieve_until_spec (b : Buffer) (e : nat) :
  inv b ->
  (e < read_index b \/ write_index b < e ->
     retrieve_until e b = Panic AssertionFailed b) /\
  (read_index b <= e <= write_index b ->
     exists b', retrieve_until e b = Ret tt b' /\
       readable_content b' = skipn (e - read_index b) (readable_content b)).
Proof.
  intros Hi. split.
  - destruct b as [r w d]. unfold retrieve_until; munfold. intros H. mcrush; reflexivity.
  - intros He. rewrite retrieve_until_retrieve by exact He.
    apply retrieve_content; [exact Hi|]. unfold readable_bytes. lia.
Qed.

Lemma retrieve_until_spec_witness :
  exists b', retrieve_until 12 sample_line = Ret tt b' /\
    readable_content b' = skipn 4 (readable_content sample_line).
Proof.
  apply (proj2 (retrieve_until_spec sample_line 12 ltac:(vm_compute; split; lia))).
  vm_compute. split; lia.
Defined.

(** X8: when [find_crlf] returns [Some(i)] on a buffer satisfying the
    invariant, [retrieve_until(i + 2)] returns, and the readable bytes
    before it were the line (the bytes before [i]), then CR LF, then the
    readable bytes it leaves. *)
Theorem crlf_line_consumed (b : Buffer) (i : nat) :
  inv b -> find_crlf b = Found (Some i) ->
  exists b', retrieve_until (i + 2) b = Ret tt b' /\
    readable_content b =
      slice (data b) (read_index b) (i - read_index b) ++ [x0d; x0a] ++
      readable_content b'.
Proof.
  intros Hi Hf. pose proof Hi as [Hi1 Hi2].
  destruct (Nat.eq_dec (write_index b) 0) as [E0|E0].
  { unfold find_crlf, do_find_crlf in Hf. rewrite E0 in Hf.
    replace (read_index b) with 0 in Hf by lia. discriminate. }
  destruct (do_find_crlf_spec b (read_index b) (write_index b) Hi1 Hi2 ltac:(lia))
    as (pos & Ep & Hp).
  unfold find_crlf in Hf. rewrite Hf in Ep. injection Ep as <-.
  destruct Hp as (Hr & Hw & [Ha Hc] & _).
  rewrite retrieve_until_retrieve by lia.
  destruct (retrieve_content b (i + 2 - read_index b) Hi ltac:(unfold readable_bytes; lia))
    as (b' & E & Hc').
  exists b'. split; [exact E|]. rewrite Hc'.
  unfold readable_content, readable_bytes.
  replace (write_index b - read_index b)
    with ((i - read_index b) + (2 + (write_index b - i - 2))) by lia.
  rewrite skipn_slice, !slice_add.
  replace (read_index b + (i - read_index b)) with i by lia.
  rewrite (slice_two _ _ _ _ Ha Hc). f_equal. f_equal. f_equal; lia.
Qed.

Lemma crlf_line_consumed_witness :
  exists b', retrieve_until 12 sample_line = Ret tt b' /\
    readable_content sample_line =
      slice (data sample_line) 8 2 ++ [x0d; x0a] ++ readable_content b'.
Proof.
  apply (crlf_line_consumed sample_line 10);
    [vm_compute; split; lia | vm_compute; reflexivity].
Defined.

(** X9: [append_bytes] of a non-empty slice on a buffer satisfying the
    invariant (with [read_index] below the storage length or at most
    [PREPEND]) returns, keeps the invariant, and leaves the old readable
    bytes followed by the slice. *)
Theorem append_bytes_appends (b : Buffer) (bytes : list byte) :
  inv b -> read_index b < length (data b) \/ read_index b <= PREPEND ->
  bytes <> [] ->
  exists b', append_bytes bytes b = Ret tt b' /\ inv b' /\
    readable_content b' = readable_content b ++ bytes.
Proof.
  intros Hi Hs Hne.
  destruct (append_ok b bytes Hi Hs Hne) as (b' & E & Hi' & _ & Hc & _).
  eauto.
Qed.

Lemma append_bytes_appends_witness :
  exists b', append_bytes [x61] (new None) = Ret tt b' /\ inv b' /\
    readable_content b' = readable_content (new None) ++ [x61].
Proof.
  apply append_bytes_appends;
    [vm_compute; split; lia | right; vm_compute; lia | discriminate].
Defined.

(** X10: [prepend_bytes] on a buffer satisfying the invariant fails its
    assertion, leaving the buffer unchanged, when the slice is longer than
    [prependable_bytes()]; a non-empty slice that fits is placed in front
    of the readable bytes, with [write_index] and the storage length
    unchanged and the invariant kept. *)
Theorem prepend_bytes_prefixes (b : Buffer) (bytes : list byte) :
  inv b ->
  (prependable_bytes b < length bytes ->
     prepend_bytes bytes b = Panic AssertionFailed b) /\
  (bytes <> [] -> length bytes <= prependable_bytes b ->
     exists b', prepend_bytes bytes b = Ret tt b' /\ inv b' /\
       readable_content b' = bytes ++ readable_content b /\
       write_index b' = write_index b /\ length (data b') = length (data b)).
Proof.
  intros Hi. split; [apply prepend_assert|].
  intros Hne Hn. destruct (prepend_content b bytes Hi Hne Hn)
    as (b' & E & Hi' & Hc & _ & Hw & Hl). eauto 7.
Qed.

Lemma prepend_bytes_prefixes_witness :
  exists b', prepend_bytes [x01; x02] sample_line = Ret tt b' /\ inv b' /\
    readable_content b' = [x01; x02] ++ readable_content sample_line /\
    write_index b' = write_index sample_line /\
    length (data b') = length (data sample_line).
Proof.
  apply (proj2 (prepend_bytes_prefixes sample_line [x01; x02]
    ltac:(vm_compute; split; lia))); [discriminate | vm_compute; lia].
Defined.

(** X11: for every width, [prepend_intW(x)] with room in the prepend area
    followed by [read_intW()] returns [x] and leaves the readable bytes as
    they were before the prepend. *)
Theorem prepend_read_int (wd : width) (b : Buffer) (x : Z) :
  inv b -> width_bytes wd <= prependable_bytes b ->
  in_int_range (width_bytes wd) x ->
  exists b1 b2, prepend_intW wd x b = Ret tt b1 /\
    read_intW wd b1 = Ret x b2 /\ readable_content b2 = readable_content b.
Proof.
  intros Hi Hn Hx.
  set (w := width_bytes wd) in *.
  assert (Hw : 1 <= w) by (subst w; destruct wd; simpl; lia).
  assert (Hne : be_bytes w x <> []).
  { intros E. apply (f_equal (@length byte)) in E. rewrite length_be_bytes in E.
    simpl in E. lia. }
  destruct (prepend_content b (be_bytes w x) Hi Hne ltac:(rewrite length_be_bytes; lia))
    as (b1 & E1 & Hi1 & Hc1 & _).
  assert (Hr1 : readable_bytes b1 = w + readable_bytes b).
  { rewrite <- (length_readable_content b1 Hi1), <- (length_readable_content b Hi), Hc1.
    rewrite length_app, length_be_bytes. reflexivity. }
  destruct (read_int_content b1 w Hi1 ltac:(lia)) as (b2 & E2 & Hc2).
  rewrite Hc1 in E2, Hc2.
  rewrite firstn_app, length_be_bytes, Nat.sub_diag, firstn_O, app_nil_r in E2.
  rewrite firstn_all2 in E2 by (rewrite length_be_bytes; lia).
  rewrite from_be_be_bytes in E2 by assumption.
  rewrite skipn_app, length_be_bytes, Nat.sub_diag, skipn_all2 in Hc2
    by (rewrite length_be_bytes; lia).
  exists b1, b2. split; [|split].
  - subst w. destruct wd; exact E1.
  - subst w. destruct wd; exact E2.
  - exact Hc2.
Qed.

Lemma prepend_read_int_witness :
  exists b1 b2, prepend_intW W32 (-5)%Z sample_line = Ret tt b1 /\
    read_intW W32 b1 = Ret (-5)%Z b2 /\
    readable_content b2 = readable_content sample_line.
Proof.
  apply prepend_read_int;
    [vm_compute; split; lia | vm_compute; lia | unfold in_int_range; simpl; lia].
Defined.

(** X12: for every width [W] of [n] bytes, on a buffer satisfying the
    invariant, [peek_intW] and [read_intW] fail their assertion when fewer
    than [n] bytes are readable; otherwise both return the first [n]
    readable bytes read as a big-endian two's complement integer, [peek_intW]
    leaves the buffer unchanged and [read_intW] drops those bytes. *)
Theorem read_int_decodes (wd : width) (b : Buffer) :
  inv b ->
  (readable_bytes b < width_bytes wd ->
     peek_intW wd b = Panic AssertionFailed b /\
     read_intW wd b = Panic AssertionFailed b) /\
  (width_bytes wd <= readable_bytes b ->
     peek_intW wd b =
       Ret (from_be (width_bytes wd) (firstn (width_bytes wd) (readable_content b))) b /\
     exists b', read_intW wd b =
       Ret (from_be (width_bytes wd) (firstn (width_bytes wd) (readable_content b))) b' /\
       readable_content b' = skipn (width_bytes wd) (readable_content b)).
Proof.
  intros Hi.
  assert (Hw : 1 <= width_bytes wd) by (destruct wd; simpl; lia).
  split.
  - intros H. split.
    + destruct wd; apply peek_int_assert; exact H.
    + destruct wd; apply read_int_assert; exact H.
  - intros H. split.
    + destruct wd; apply peek_int_content; simpl in *; auto.
    + destruct wd; apply read_int_content; simpl in *; auto.
Qed.

Lemma read_int_decodes_witness :
  exists b', read_intW W16 sample_line =
    Ret (from_be 2 (firstn 2 (readable_content sample_line))) b' /\
    readable_content b' = skipn 2 (readable_content sample_line).
Proof.
  apply (proj2 (proj2 (read_int_decodes W16 sample_line
    ltac:(vm_compute; split; lia)) ltac:(vm_compute; lia))).
Defined.

(** X13: on a buffer satisfying the invariant, when the stream reports end
    of input ([Ok(0)]), [read_from] panics with an out-of-bounds index on the empty slice it appends,
    leaving the buffer unchanged. *)
Theorem read_from_eof_panics {E : Type}
    (stream_read : list byte -> io_result E (nat * list byte)) (bytes : list byte) (b : Buffer) :
  inv b -> stream_read (zeros 65536) = IoOk (0, bytes) ->
  read_from stream_read b = Panic IndexOutOfBounds b.
Proof.
  intros _ Hs. unfold read_from. rewrite Hs.
  cbv [bind ret panic]. cbn [firstn Nat.leb]. now rewrite append_bytes_nil.
Qed.

Lemma read_from_eof_panics_witness :
  read_from (fun arr : list byte => @IoOk unit _ (0, arr)) (new None) =
    Panic IndexOutOfBounds (new None).
Proof.
  apply (read_from_eof_panics _ (zeros 65536)); [vm_compute; split; lia | reflexivity].
Defined.

(** X14: when the stream delivers [n >= 1] bytes, [read_from] on a buffer
    satisfying the invariant (with [read_index] below the storage length
    or at most [PREPEND]) returns [Ok(n)], keeps the invariant, and appends
    the first [n] bytes of its array to the readable bytes. *)
Theorem read_from_appends {E : Type}
    (stream_read : list byte -> io_result E (nat * list byte))
    (n : nat) (bytes : list byte) (b : Buffer) :
  inv b -> read_index b < length (data b) \/ read_index b <= PREPEND ->
  stream_read (zeros 65536) = IoOk (n, bytes) -> 1 <= n <= length bytes ->
  exists b', read_from stream_read b = Ret (IoOk n) b' /\ inv b' /\
    readable_content b' = readable_content b ++ firstn n bytes.
Proof.
  intros Hi Hs Hr Hn. unfold read_from. rewrite Hr.
  destruct (Nat.leb_spec n (length bytes)); [|lia].
  assert (Hne : firstn n bytes <> []).
  { intros E0. apply (f_equal (@length byte)) in E0.
    rewrite length_firstn in E0. simpl in E0. lia. }
  destruct (append_ok b (firstn n bytes) Hi Hs Hne) as (b' & E1 & Hi' & _ & Hc & _).
  unfold bind at 1. cbv [ret]. unfold bind at 1. rewrite E1. eauto.
Qed.

Lemma read_from_appends_witness :
  exists b', read_from (fun arr : list byte => @IoOk unit _ (3, write_at arr 0 [x61; x62; x63]))
      (new None) = Ret (IoOk 3) b' /\ inv b' /\
    readable_content b' = readable_content (new None) ++
      firstn 3 (write_at (zeros 65536) 0 [x61; x62; x63]).
Proof.
  apply read_from_appends.
  - vm_compute. split; lia.
  - right. vm_compute. lia.
  - reflexivity.
  - split; [lia|]. apply Nat.leb_le. vm_compute. reflexivity.
Defined.

(** X15: [unwrite(n)] on a buffer satisfying the invariant fails its
    assertion, leaving the buffer unchanged, when [n > readable_bytes()];
    otherwise it drops the last [n] readable bytes without touching the
    storage, so that [has_written(n)] afterwards restores the buffer
    exactly. *)
Theorem unwrite_drops_last (b : Buffer) (n : nat) :
  inv b ->
  (readable_bytes b < n -> unwrite n b = Panic AssertionFailed b) /\
  (n <= readable_bytes b ->
     exists b', unwrite n b = Ret tt b' /\
       readable_content b' = firstn (readable_bytes b - n) (readable_content b) /\
       has_written n b' = Ret tt b).
Proof.
  destruct b as [r w d]. unfold inv; cbn [read_index write_index data]. intros [H1 H2].
  split.
  - unfold unwrite; munfold. intros H. mcrush; reflexivity.
  - intros H. unfold unwrite; munfold. mcrush. eexists; split; [reflexivity|].
    unfold readable_content, readable_bytes; cbn [read_index write_index data].
    rewrite firstn_slice. split; [f_equal; lia|].
    unfold has_written; munfold. mcrush.
    now replace (w - n + n) with w by lia.
Qed.

Lemma unwrite_drops_last_witness :
  exists b', unwrite 2 sample_line = Ret tt b' /\
    readable_content b' = firstn 4 (readable_content sample_line) /\
    has_written 2 b' = Ret tt sample_line.
Proof.
  apply (proj2 (unwrite_drops_last sample_line 2 ltac:(vm_compute; split; lia))).
  vm_compute. lia.
Defined.

(** X16: [has_written(n)] on a buffer satisfying the invariant fails its
    assertion, leaving the buffer unchanged, when [n > writable_bytes()];
    otherwise it keeps the invariant and makes the next [n] bytes of the
    storage readable after the old readable bytes. *)
Theorem has_written_exposes (b : Buffer) (n : nat) :
  inv b ->
  (writable_bytes b < n -> has_written n b = Panic AssertionFailed b) /\
  (n <= writable_bytes b ->
     exists b', has_written n b = Ret tt b' /\ inv b' /\
       readable_content b' = readable_content b ++ slice (data b) (write_index b) n).
Proof.
  destruct b as [r w d]. unfold inv; cbn [read_index write_index data]. intros [H1 H2].
  split.
  - unfold has_written; munfold. intros H. mcrush; reflexivity.
  - intros H. unfold has_written; munfold. mcrush. eexists; split; [reflexivity|].
    unfold inv, readable_content, readable_bytes; cbn [read_index write_index data].
    replace (w + n - r) with ((w - r) + n) by lia. rewrite slice_add.
    replace (r + (w - r)) with w by lia. repeat split; lia.
Qed.

Lemma has_written_exposes_witness :
  exists b', has_written 4 sample_line = Ret tt b' /\ inv b' /\
    readable_content b' = readable_content sample_line ++ slice (data sample_line) 14 4.
Proof.
  apply (proj2 (has_written_exposes sample_line 4 ltac:(vm_compute; split; lia))).
  vm_compute. lia.
Defined.

(** X17: [retrieve_all_as_string] on a buffer satisfying the invariant with
    readable bytes resets both cursors to [PREPEND] whether or not those
    bytes are valid UTF-8: it returns them when they are, and otherwise
    panics on the unwrap with the cursors already reset. *)
Theorem retrieve_all_as_string_drains (b : Buffer) :
  inv b -> 0 < readable_bytes b ->
  (utf8_valid (readable_content b) = true ->
     retrieve_all_as_string b =
       Ret (readable_content b) (mkBuffer PREPEND PREPEND (data b))) /\
  (utf8_valid (readable_content b) = false ->
     retrieve_all_as_string b = Panic UnwrapFailed (mkBuffer PREPEND PREPEND (data b))).
Proof.
  intros Hi Hr. unfold retrieve_all_as_string, bind at 1, get. split.
  - intros Hu. destruct (retrieve_as_string_valid b (readable_bytes b) Hi Hr ltac:(lia) Hu)
      as (b' & E1 & E2).
    rewrite retrieve_full in E1 by reflexivity. injection E1 as <-. exact E2.
  - intros Hu. destruct (retrieve_as_string_invalid b (readable_bytes b) Hi ltac:(lia) Hu)
      as (b' & E1 & E2).
    rewrite retrieve_full in E1 by reflexivity. injection E1 as <-. exact E2.
Qed.

Lemma retrieve_all_as_string_drains_witness :
  retrieve_all_as_string sample_line =
    Ret (readable_content sample_line) (mkBuffer PREPEND PREPEND (data sample_line)).
Proof.
  apply (proj1 (retrieve_all_as_string_drains sample_line
    ltac:(vm_compute; split; lia) ltac:(vm_compute; lia))).
  vm_compute. reflexivity.
Defined.

(** X18: [shrink(reserve)] on a buffer satisfying the invariant whose
    readable bytes are not valid UTF-8, with
    [PREPEND + readable_bytes() + reserve] within [VEC_MAX], panics on the
    unwrap and leaves the buffer with both cursors at [PREPEND]: no
    readable byte is left. *)
Theorem shrink_invalid_drains (b : Buffer) (reserve : nat) :
  inv b -> fits_vec (PREPEND + readable_bytes b + reserve) ->
  0 < readable_bytes b -> utf8_valid (readable_content b) = false ->
  shrink reserve b = Panic UnwrapFailed (mkBuffer PREPEND PREPEND (data b)) /\
  readable_content (mkBuffer PREPEND PREPEND (data b)) = [].
Proof.
  intros Hi _ Hr Hu. split; [|reflexivity].
  destruct (ensure_fresh (readable_bytes b + reserve)) as (d1 & E1 & _).
  destruct (retrieve_as_string_invalid b (readable_bytes b) Hi ltac:(lia) Hu)
    as (b' & E2 & E3).
  rewrite retrieve_full in E2 by reflexivity. injection E2 as <-.
  unfold shrink. rewrite E1. unfold retrieve_all_as_string, bind at 1, get.
  rewrite E3. reflexivity.
Qed.

Lemma shrink_invalid_drains_witness :
  let b := mkBuffer 8 9 (zeros 8 ++ [xff] ++ zeros 3) in
  shrink 0 b = Panic UnwrapFailed (mkBuffer PREPEND PREPEND (data b)) /\
  readable_content (mkBuffer PREPEND PREPEND (data b)) = [].
Proof.
  intros b. apply shrink_invalid_drains;
    [vm_compute; split; lia | apply N.leb_le; vm_compute; reflexivity |
     vm_compute; lia | vm_compute; reflexivity].
Defined.

(** X19: [ensure_writable_bytes(n)] on a buffer satisfying the invariant
    (with [read_index] below the storage length or at most [PREPEND]) and
    [write_index + n] within [VEC_MAX] returns, keeps the invariant and the readable bytes, makes at least
    [n] bytes writable, and never shortens the storage. *)
Theorem ensure_keeps_content (b : Buffer) (n : nat) :
  inv b -> fits_vec (write_index b + n) ->
  read_index b < length (data b) \/ read_index b <= PREPEND ->
  exists b', ensure_writable_bytes n b = Ret tt b' /\ inv b' /\
    n <= writable_bytes b' /\ readable_content b' = readable_content b /\
    length (data b) <= length (data b').
Proof.
  intros Hi _ Hs. destruct (ensure_ok b n Hi Hs) as (b' & E & Hi' & Hw & _ & Hc & _).
  exists b'. repeat split; try assumption; try apply Hi'.
  exact (ensure_length b b' n Hi E).
Qed.

Lemma ensure_keeps_content_witness :
  exists b', ensure_writable_bytes 100 sample_line = Ret tt b' /\ inv b' /\
    100 <= writable_bytes b' /\ readable_content b' = readable_content sample_line /\
    length (data sample_line) <= length (data b').
Proof.
  apply ensure_keeps_content;
    [vm_compute; split; lia | apply N.leb_le; vm_compute; reflexivity | left; vm_compute; lia].
Defined.

(** X20: [retrieve_as_string(n)] with [0 < n <= readable_bytes()], on a
    buffer satisfying the invariant whose first [n] readable bytes are
    valid UTF-8, returns those bytes and drops them from the readable
    bytes. *)
Theorem retrieve_as_string_prefix (b : Buffer) (n : nat) :
  inv b -> 0 < n <= readable_bytes b ->
  utf8_valid (firstn n (readable_content b)) = true ->
  exists b', retrieve_as_string n b = Ret (firstn n (readable_content b)) b' /\
    readable_content b' = skipn n (readable_content b).
Proof.
  intros Hi Hn Hu.
  assert (Hf : firstn n (readable_content b) = slice (data b) (read_index b) n).
  { unfold readable_content. rewrite firstn_slice. f_equal. lia. }
  rewrite Hf in Hu |- *.
  destruct (retrieve_as_string_valid b n Hi ltac:(lia) ltac:(lia) Hu) as (b' & E1 & E2).
  destruct (retrieve_content b n Hi ltac:(lia)) as (b'' & E3 & Hc).
  rewrite E1 in E3. injection E3 as <-. eauto.
Qed.

Lemma retrieve_as_string_prefix_witness :
  exists b', retrieve_as_string 2 sample_line =
      Ret (firstn 2 (readable_content sample_line)) b' /\
    readable_content b' = skipn 2 (readable_content sample_line).
Proof.
  apply retrieve_as_string_prefix;
    [vm_compute; split; lia | vm_compute; lia | vm_compute; reflexivity].
Defined.
